(** * DicomParser: tag based classification of a DICOM tree (src/main.py)

    A shallow embedding of the classification engine of [DicomParser]:
    the candidate filter ([check_file_type], [check_file]), the tag matcher
    ([check_tags]), the classifier ([meta_data_search], [scan_folder]) and
    the completeness validator ([check_path_memory]).

    Modelling choices.
    - Python [str] is [string]; Python [int] is [Z].
    - A Python [dict] is insertion ordered with unique keys: it is an
      association list ([dict]) with [dict_get] and [dict_set], the latter
      updating in place or appending at the end.
    - The pydicom data set is a finite map from keyword to value, values
      being strings; [ds.get(key)] is the map lookup. The tag matcher is
      also embedded over the other values [ds.get] can return ([PyValue]).
    - Exceptions are an explicit result type; the mutable [path_memory]
      is threaded through a state monad whose state survives a raise.
    - The file system is a record of the operating system calls the code
      makes ([os.walk], [os.path.isfile], [os.listdir], [dcmread]).
    - [logger.trace] and [logger.debug] are not modelled; the summary
      logged at the end of the scan is an event of the trace, the
      warnings of [check_path_memory] are its result. *)

From Stdlib Require Import ZArith.
From stdpp Require Import gmap strings list fin_maps.

Local Open Scope Z_scope.
Local Open Scope string_scope.
Local Open Scope list_scope.

(** ** Python strings *)

(** [x in s] for two strings: [x] occurs in [s] as a contiguous block. *)
Fixpoint str_in (x s : string) : bool :=
  String.prefix x s ||
  match s with
  | EmptyString => false
  | String _ s' => str_in x s'
  end.

(** [s.endswith(x)] *)
Fixpoint endswith (s x : string) : bool :=
  (if decide (s = x) then true else false) ||
  match s with
  | EmptyString => false
  | String _ s' => endswith s' x
  end.

(** Truth value of a Python string and of a Python list. *)
Definition str_truthy (s : string) : bool :=
  match s with EmptyString => false | _ => true end.

Definition list_truthy {A : Type} (l : list A) : bool :=
  match l with [] => false | _ => true end.

(** [len(l)] *)
Definition len {A : Type} (l : list A) : Z := Z.of_nat (length l).

(** ** Python dictionaries *)

Definition dict (V : Type) : Type := list (string * V).

Fixpoint dict_get {V : Type} (d : dict V) (k : string) : option V :=
  match d with
  | [] => None
  | (k', v) :: d' => if decide (k' = k) then Some v else dict_get d' k
  end.

(** [d[k] = v]: an existing key keeps its position. *)
Fixpoint dict_set {V : Type} (d : dict V) (k : string) (v : V) : dict V :=
  match d with
  | [] => [(k, v)]
  | (k', v') :: d' =>
      if decide (k' = k) then (k', v) :: d' else (k', v') :: dict_set d' k v
  end.

Definition dict_keys {V : Type} (d : dict V) : list string := map fst d.

(** The keys of a dictionary are pairwise distinct. *)
Definition dict_wf {V : Type} (d : dict V) : Prop := NoDup (dict_keys d).

(** ** Exceptions *)

Inductive exn : Type :=
| ValueError (msg : string)
| KeyError (key : string)
| OSError (path : string)
| TypeError (msg : string).

Inductive outcome (A : Type) : Type :=
| Ok (a : A)
| Raise (e : exn).
Arguments Ok {A} a.
Arguments Raise {A} e.

Definition is_ValueError {A : Type} (r : outcome A) : Prop :=
  match r with Raise (ValueError _) => True | _ => False end.

(** ** Configuration of a [DicomParser] *)

(** A value-group is a list of alternative substrings. *)
Definition value_group : Type := list string.
(** The rules of one category: metadata key to its value-groups. *)
Definition rules : Type := dict (list value_group).

Record DicomParser : Type := {
  src : string;
  dst : string;
  min_number_of_slices : Z;
  file_types : list string;
  search_tags : dict rules;
  exclude_tags : list string;
  log_level : string
}.

(** The data set read from one file. *)
Definition dataset : Type := gmap string string.

(** ** Candidate filter: file type *)

Definition check_file_type (self : DicomParser) (file_name : string) : bool :=
  if list_truthy (List.filter (fun x => endswith file_name x) (file_types self))
  then true
  else false.

(** ** Tag matcher *)

Definition dquote : string := String (Ascii.ascii_of_nat 34) EmptyString.

Definition missing_value_error (case_name key : string) : exn :=
  ValueError ("Value for case " +:+ case_name +:+ " with key " +:+ dquote
              +:+ key +:+ dquote +:+ " -> None").

(** The loop over the value-groups of one key: [counter] grows by one for
    each group one of whose substrings occurs in [meta_data]. *)
Fixpoint check_values (search_values : list value_group) (meta_data : string)
    (counter : Z) : Z :=
  match search_values with
  | [] => counter
  | value :: rest =>
      check_values rest meta_data
        (if list_truthy (List.filter (fun x => str_in x meta_data) value)
         then counter + 1
         else counter)
  end.

(** The loop over the keys of one category, carrying [counter] and
    [count_values]. *)
Fixpoint check_keys (tags : rules) (keys : list string) (ds : dataset)
    (case_name : string) (counter count_values : Z) : outcome (Z * Z) :=
  match keys with
  | [] => Ok (counter, count_values)
  | key :: rest =>
      match ds !! key with
      | Some meta_data =>
          if str_truthy meta_data then
            match dict_get tags key with
            | Some search_values =>
                check_keys tags rest ds case_name
                  (check_values search_values meta_data counter)
                  (count_values + len search_values)
            | None => Raise (KeyError key)
            end
          else Raise (missing_value_error case_name key)
      | None => Raise (missing_value_error case_name key)
      end
  end.

Definition check_tags (self : DicomParser) (ds : dataset)
    (modality case_name : string) : outcome bool :=
  match dict_get (search_tags self) modality with
  | None => Raise (KeyError modality)
  | Some tags =>
      match check_keys tags (dict_keys tags) ds case_name 0 0 with
      | Ok (counter, count_values) =>
          Ok (if bool_decide (counter = count_values)
                 && negb (bool_decide (counter = 0))
              then true else false)
      | Raise e => Raise e
      end
  end.

(** ** Paths (posixpath) *)

Definition slash : Ascii.ascii := Ascii.ascii_of_nat 47.

Fixpoint has_slash (p : string) : bool :=
  match p with
  | EmptyString => false
  | String c p' => (if decide (c = slash) then true else false) || has_slash p'
  end.

Fixpoint all_slash (p : string) : bool :=
  match p with
  | EmptyString => true
  | String c p' => (if decide (c = slash) then true else false) && all_slash p'
  end.

(** [p[:p.rfind('/') + 1]] *)
Fixpoint path_head (p : string) : string :=
  match p with
  | EmptyString => EmptyString
  | String c p' => if has_slash p then String c (path_head p') else EmptyString
  end.

(** [s.rstrip('/')] *)
Fixpoint rstrip_slash (s : string) : string :=
  match s with
  | EmptyString => EmptyString
  | String c s' => if all_slash s then EmptyString else String c (rstrip_slash s')
  end.

Definition os_path_dirname (p : string) : string :=
  let head := path_head p in
  if str_truthy head && negb (all_slash head) then rstrip_slash head else head.

Definition os_path_join (a b : string) : string :=
  if String.prefix "/" b then b
  else if negb (str_truthy a) || endswith a "/" then a +:+ b
  else a +:+ "/" +:+ b.

(** ** The file system, as the calls the parser makes see it *)

Record filesystem : Type := {
  (** [os.walk(top)]: the visited directories in order, each with the
      names of its sub-directories and of its other entries. *)
  os_walk : string -> list (string * list string * list string);
  os_path_isfile : string -> bool;
  (** [os.listdir(path)]; [None] when the call raises. *)
  os_listdir : string -> option (list string);
  (** [pydicom.filereader.dcmread(path, force=True)]; [None] when the
      call raises. *)
  dcmread : string -> option dataset
}.

(** ** Candidate filter *)

(** The result is the product of three Python booleans, an [int]. *)
Definition check_file (fs : filesystem) (self : DicomParser)
    (file_path : string) : outcome Z :=
  let check_1 := os_path_isfile fs file_path && check_file_type self file_path in
  match os_listdir fs (os_path_dirname file_path) with
  | None => Raise (OSError (os_path_dirname file_path))
  | Some entries =>
      let count_slices := len entries in
      let check_2 :=
        negb (list_truthy
                (List.filter (fun x => str_in x file_path) (exclude_tags self))) in
      let check_3 := bool_decide (count_slices >= min_number_of_slices self) in
      Ok (Z.b2z check_1 * Z.b2z check_2 * Z.b2z check_3)
  end.

(** ** The path memory and the state of a run *)

Definition NestedDefaultDict : Type := dict (dict string).

(** What the scan does to the file system, in order. *)
Inductive event : Type :=
| CheckFile (file_path : string)
| DcmRead (file_path : string)
| LogInfo (memory : NestedDefaultDict).

Record state : Type := {
  path_memory : NestedDefaultDict;
  trace : list event
}.

(** The state of a freshly constructed parser. *)
Definition init : state := {| path_memory := []; trace := [] |}.

(** Computations that mutate the parser and may raise; the mutation done
    before a raise stays. *)
Definition M (A : Type) : Type := state -> state * outcome A.

Definition ret {A : Type} (a : A) : M A := fun s => (s, Ok a).

Definition raise {A : Type} (e : exn) : M A := fun s => (s, Raise e).

Definition lift {A : Type} (r : outcome A) : M A := fun s => (s, r).

Definition bind {A B : Type} (m : M A) (k : A -> M B) : M B :=
  fun s =>
    match m s with
    | (s', Ok a) => k a s'
    | (s', Raise e) => (s', Raise e)
    end.

Notation "x <- m ;; k" := (bind m (fun x => k))
  (at level 100, m at next level, right associativity).
Notation "m ;;; k" := (bind m (fun _ => k))
  (at level 100, right associativity).

Definition emit (e : event) : M unit :=
  fun s => ({| path_memory := path_memory s; trace := trace s ++ [e] |}, Ok tt).

(** [memory[case_name][modality] = file_path] on the auto-expanding
    dictionary: a case seen for the first time gets an empty inner
    dictionary at the end. *)
Definition memory_set (memory : NestedDefaultDict)
    (case_name modality file_path : string) : NestedDefaultDict :=
  let inner := default [] (dict_get memory case_name) in
  dict_set memory case_name (dict_set inner modality file_path).

Definition set_path (case_name modality file_path : string) : M unit :=
  fun s =>
    ({| path_memory := memory_set (path_memory s) case_name modality file_path;
        trace := trace s |}, Ok tt).

(** ** Classifier *)

(** [str(ds.get('PatientName'))] *)
Definition patient_name (ds : dataset) : string :=
  match ds !! "PatientName" with
  | Some v => v
  | None => "None"
  end.

(** The loop over the categories for one data set. *)
Fixpoint search_modalities (self : DicomParser) (modalities : list string)
    (ds : dataset) (case_name file_path : string) : M unit :=
  match modalities with
  | [] => ret tt
  | modality :: rest =>
      found <- lift (check_tags self ds modality case_name) ;;
      (if found : bool then set_path case_name modality file_path else ret tt) ;;;
      search_modalities self rest ds case_name file_path
  end.

Definition meta_data_search (fs : filesystem) (self : DicomParser)
    (file_path : string) : M unit :=
  emit (DcmRead file_path) ;;;
  match dcmread fs file_path with
  | None => raise (OSError file_path)
  | Some ds =>
      search_modalities self (dict_keys (search_tags self)) ds
        (patient_name ds) file_path
  end.

(** The loop over the files of one directory, left at the first
    candidate. *)
Fixpoint scan_files (fs : filesystem) (self : DicomParser) (root : string)
    (files : list string) : M unit :=
  match files with
  | [] => ret tt
  | file :: rest =>
      let file_path := os_path_join root file in
      emit (CheckFile file_path) ;;;
      c <- lift (check_file fs self file_path) ;;
      if bool_decide (c <> 0) then meta_data_search fs self file_path
      else scan_files fs self root rest
  end.

(** The loop over the directories of the walk. *)
Fixpoint scan_dirs (fs : filesystem) (self : DicomParser)
    (walk : list (string * list string * list string)) : M unit :=
  match walk with
  | [] => ret tt
  | (root, _, files) :: rest =>
      scan_files fs self root files ;;;
      scan_dirs fs self rest
  end.

Definition scan_folder (fs : filesystem) (self : DicomParser) : M unit :=
  scan_dirs fs self (os_walk fs (src self)) ;;;
  (fun s => emit (LogInfo (path_memory s)) s).

(** ** Completeness validator *)

(** The warnings written by [check_path_memory]. *)
Inductive warning : Type :=
| MissingHeader
| MissingData (case_name : string) (missing_sequences : gset string).

Definition py_set (l : list string) : gset string := list_to_set l.

Fixpoint check_cases (self : DicomParser) (count_search_tags : Z)
    (items : NestedDefaultDict) (call_once : bool) : list warning :=
  match items with
  | [] => []
  | (case_name, sequence_names) :: rest =>
      if bool_decide (count_search_tags <> len sequence_names) then
        (if call_once then [MissingHeader] else []) ++
        MissingData case_name
          (py_set (dict_keys (search_tags self))
             ∖ py_set (dict_keys sequence_names))
        :: check_cases self count_search_tags rest false
      else check_cases self count_search_tags rest call_once
  end.

Definition check_path_memory (self : DicomParser)
    (memory : NestedDefaultDict) : list warning :=
  check_cases self (len (search_tags self)) memory true.

(** * Vocabulary of the specification *)

(** A value-group is satisfied by a metadata value when one of its
    substrings occurs in the value. *)
Definition group_satisfied (meta_data : string) (group : value_group) : bool :=
  existsb (fun x => str_in x meta_data) group.

(** The satisfied value-groups of one key. *)
Definition satisfied_in (ds : dataset) (item : string * list value_group) : nat :=
  match ds !! item.1 with
  | Some meta_data => length (List.filter (group_satisfied meta_data) item.2)
  | None => 0%nat
  end.

(** The number of satisfied value-groups of a category, and the number
    of value-groups it declares. *)
Definition satisfied_groups (tags : rules) (ds : dataset) : nat :=
  sum_list (map (satisfied_in ds) tags).

Definition total_groups (tags : rules) : nat :=
  sum_list (map (fun item : string * list value_group => length item.2) tags).

(** The value of a key is absent or has the truth value false. *)
Definition falsy (ds : dataset) (key : string) : bool :=
  match ds !! key with
  | Some meta_data => negb (str_truthy meta_data)
  | None => true
  end.

(** * Example configurations and data sets *)

(** The configuration at the end of src/main.py. *)
Definition main_parser : DicomParser := {|
  src := "/home/melandur/Data/Myocarditis/test3/";
  dst := "/home/melandur/Downloads/test_me";
  min_number_of_slices := 1;
  file_types := [""];
  search_tags :=
    [("t2_star", [("SeriesDescription", [["T2"]; ["STAR"]]); ("Modality", [["MR"]])]);
     ("t2_spair", [("SeriesDescription", [["T2"]; ["SPAIR"]]); ("Modality", [["MR"]])])];
  exclude_tags := ["DICOMDIR"];
  log_level := "TRACE"
|}.

(** The same configuration with no accepted file type. *)
Definition no_types_parser : DicomParser := {|
  src := src main_parser;
  dst := dst main_parser;
  min_number_of_slices := 1;
  file_types := [];
  search_tags := search_tags main_parser;
  exclude_tags := exclude_tags main_parser;
  log_level := "TRACE"
|}.

(** One category with two keys of one value-group each. *)
Definition series_parser : DicomParser := {|
  src := "/data";
  dst := "/out";
  min_number_of_slices := 2;
  file_types := [".dcm"];
  search_tags := [("seriesA", [("Description", [["FOO"]]); ("Kind", [["X"]])])];
  exclude_tags := ["DICOMDIR"];
  log_level := "INFO"
|}.

Definition ds_foo_x : dataset :=
  <["PatientName" := "case1"]> (<["Description" := "FOO-scan"]> (<["Kind" := "X-ray"]> ∅)).

Definition ds_foo_y : dataset :=
  <["PatientName" := "case1"]> (<["Description" := "FOO-scan"]> (<["Kind" := "Y"]> ∅)).

Definition ds_no_kind : dataset :=
  <["PatientName" := "case1"]> (<["Description" := "FOO-scan"]> ∅).

Definition ds_empty_kind : dataset :=
  <["PatientName" := "case1"]> (<["Description" := "FOO-scan"]> (<["Kind" := ""]> ∅)).

(** A tree with three series directories; the data set of the files of
    the second one is a parameter. *)
Definition series_fs_with (ds_b : dataset) : filesystem := {|
  os_walk := fun top =>
    if decide (top = "/data") then
      [("/data", ["a"; "b"; "c"], ["DICOMDIR"]);
       ("/data/a", [], ["notes.txt"; "1.dcm"; "2.dcm"]);
       ("/data/b", [], ["1.dcm"; "2.dcm"]);
       ("/data/c", [], ["1.dcm"])]
    else [];
  os_path_isfile := fun p =>
    bool_decide (p ∈ ["/data/DICOMDIR"; "/data/a/notes.txt"; "/data/a/1.dcm";
                      "/data/a/2.dcm"; "/data/b/1.dcm"; "/data/b/2.dcm";
                      "/data/c/1.dcm"]);
  os_listdir := fun d =>
    if decide (d = "/data") then Some ["a"; "b"; "c"; "DICOMDIR"]
    else if decide (d = "/data/a") then Some ["notes.txt"; "1.dcm"; "2.dcm"]
    else if decide (d = "/data/b") then Some ["1.dcm"; "2.dcm"]
    else if decide (d = "/data/c") then Some ["1.dcm"]
    else None;
  dcmread := fun p =>
    if decide (p = "/data/a/1.dcm") then Some ds_foo_x
    else if decide (p = "/data/a/2.dcm") then Some ds_foo_x
    else if decide (p = "/data/b/1.dcm") then Some ds_b
    else if decide (p = "/data/b/2.dcm") then Some ds_b
    else if decide (p = "/data/c/1.dcm") then Some ds_foo_x
    else if bool_decide (p ∈ ["/data/DICOMDIR"; "/data/a/notes.txt"]) then Some ∅
    else None
|}.

Definition series_fs : filesystem := series_fs_with ds_foo_x.

(** The files of the second directory lack a required key. *)
Definition broken_fs : filesystem := series_fs_with ds_no_kind.

(** A path passes the candidate filter: [check_file] returns a true value. *)
Definition passes (fs : filesystem) (self : DicomParser) (file_path : string) : Prop :=
  exists c, check_file fs self file_path = Ok c /\ c <> 0.

(** The state with further events in its trace. *)
Definition log_events (s : state) (evs : list event) : state :=
  {| path_memory := path_memory s; trace := trace s ++ evs |}.

(** The [CheckFile] events of the files of a directory. *)
Definition checks (root : string) (files : list string) : list event :=
  map (fun file => CheckFile (os_path_join root file)) files.

(** [memory[case_name][modality]] without auto-expansion. *)
Definition lookup2 (memory : NestedDefaultDict) (case_name modality : string)
    : option string :=
  match dict_get memory case_name with
  | Some inner => dict_get inner modality
  | None => None
  end.

(** The file of a directory the scan reads: the first one, in listing
    order, that passes the candidate filter. *)
Fixpoint first_candidate (fs : filesystem) (self : DicomParser) (root : string)
    (files : list string) : option string :=
  match files with
  | [] => None
  | file :: rest =>
      match check_file fs self (os_path_join root file) with
      | Ok c =>
          if bool_decide (c <> 0) then Some (os_path_join root file)
          else first_candidate fs self root rest
      | Raise _ => None
      end
  end.

(** The data set matches a category. *)
Definition tag_match (self : DicomParser) (ds : dataset)
    (modality case_name : string) : bool :=
  match check_tags self ds modality case_name with
  | Ok true => true
  | _ => false
  end.

(** The file at [file_path] derives the case identity [case_name] and
    matches the category [modality]. *)
Definition matchesb (fs : filesystem) (self : DicomParser)
    (file_path case_name modality : string) : bool :=
  match dcmread fs file_path with
  | Some ds =>
      bool_decide (patient_name ds = case_name)
      && tag_match self ds modality case_name
  | None => false
  end.

(** A write to the path memory: case, category, location. *)
Definition write : Type := string * string * string.

Definition write_key (w : write) : string * string := w.1.

Definition apply_write (memory : NestedDefaultDict) (w : write)
    : NestedDefaultDict :=
  memory_set memory w.1.1 w.1.2 w.2.

Definition apply_writes (ws : list write) (memory : NestedDefaultDict)
    : NestedDefaultDict :=
  fold_left apply_write ws memory.

(** The location last written to a (case, category) pair. *)
Fixpoint last_write (ws : list write) (k : string * string) : option string :=
  match ws with
  | [] => None
  | w :: ws' =>
      match last_write ws' k with
      | Some p => Some p
      | None => if decide (write_key w = k) then Some w.2 else None
      end
  end.

(** A computation whose effect on the path memory is a fixed list of
    writes and whose outcome is fixed, whatever the state it starts in. *)
Definition writes_of {A : Type} (m : M A) (ws : list write) (r : outcome A)
    : Prop :=
  forall s, path_memory (m s).1 = apply_writes ws (path_memory s) /\ (m s).2 = r.

(** Every stored category is a configured one and every stored location
    passed the candidate filter. *)
Definition memory_inv (fs : filesystem) (self : DicomParser)
    (memory : NestedDefaultDict) : Prop :=
  forall case_name inner modality file_path,
    (case_name, inner) ∈ memory -> (modality, file_path) ∈ inner ->
    modality ∈ dict_keys (search_tags self) /\ passes fs self file_path.

(** A computation is oblivious of the state it starts in when its writes
    and its outcome are fixed. *)
Definition oblivious {A : Type} (m : M A) : Prop :=
  exists ws r, writes_of m ws r.

(** A path memory for [main_parser]: the first case lacks one category. *)
Definition example_memory : NestedDefaultDict :=
  [("P1", [("t2_star", "/scans/p1/star/1.dcm")]);
   ("P2", [("t2_star", "/scans/p2/star/1.dcm");
           ("t2_spair", "/scans/p2/spair/1.dcm")])].

(** The path memory is a dictionary of dictionaries: keys are distinct at
    both levels. *)
Definition memory_wf (memory : NestedDefaultDict) : Prop :=
  dict_wf memory /\ forall c inner, (c, inner) ∈ memory -> dict_wf inner.

(** * The rest of the parser *)

(** ** [show_certain_meta_data] *)

Definition newline : string := String (Ascii.ascii_of_nat 10) EmptyString.

Fixpoint spaces (n : nat) : string :=
  match n with
  | O => EmptyString
  | S n' => String (Ascii.ascii_of_nat 32) (spaces n')
  end.

(** [f'{s:<width}'] *)
Definition ljust (s : string) (width : nat) : string :=
  s +:+ spaces (width - String.length s).

(** [str(ds.get(tag))] *)
Definition str_get (ds : dataset) (tag : string) : string :=
  match ds !! tag with
  | Some v => v
  | None => "None"
  end.

(** What [print] is called with. *)
Inductive printed : Type :=
| PrintText (text : string)
| PrintDataset (ds : dataset).

(** Truth value of the optional list [tags]. *)
Definition tags_truthy (tags : option (list string)) : bool :=
  match tags with
  | Some (_ :: _) => true
  | _ => false
  end.

(** The lines printed for one data set. *)
Definition show_dataset (tags : option (list string)) (file_path : string)
    (ds : dataset) : list printed :=
  if tags_truthy tags then
    PrintText (newline +:+ file_path)
    :: map (fun tag => PrintText (ljust tag 20 +:+ str_get ds tag)) (default [] tags)
  else [PrintDataset ds].

Fixpoint show_files (fs : filesystem) (self : DicomParser)
    (tags : option (list string)) (root : string) (files : list string)
    : list printed * outcome unit :=
  match files with
  | [] => ([], Ok tt)
  | file :: rest =>
      let file_path := os_path_join root file in
      match check_file fs self file_path with
      | Raise e => ([], Raise e)
      | Ok c =>
          if bool_decide (c <> 0) then
            match dcmread fs file_path with
            | None => ([], Raise (OSError file_path))
            | Some ds => (show_dataset tags file_path ds, Ok tt)
            end
          else show_files fs self tags root rest
      end
  end.

Fixpoint show_dirs (fs : filesystem) (self : DicomParser)
    (tags : option (list string))
    (walk : list (string * list string * list string))
    : list printed * outcome unit :=
  match walk with
  | [] => ([], Ok tt)
  | (root, _, files) :: rest =>
      match show_files fs self tags root files with
      | (out, Ok _) =>
          let (out', r) := show_dirs fs self tags rest in (out ++ out', r)
      | (out, Raise e) => (out, Raise e)
      end
  end.

Definition show_certain_meta_data (fs : filesystem) (self : DicomParser)
    (tags : option (list string)) : list printed * outcome unit :=
  show_dirs fs self tags (os_walk fs (src self)).

(** ** Conversion *)

(** The calls to SimpleITK and [os.makedirs] made by the conversion;
    [Execute] gives [None] and the two writing calls give [false] when they
    raise. *)
Record converter (Image : Type) : Type := {
  GetGDCMSeriesIDs : string -> list string;
  GetGDCMSeriesFileNames : string -> string -> list string;
  Execute : list string -> option Image;
  os_makedirs : string -> bool;
  WriteImage : Image -> string -> bool
}.
Arguments GetGDCMSeriesIDs {Image} _ _.
Arguments GetGDCMSeriesFileNames {Image} _ _ _.
Arguments Execute {Image} _ _.
Arguments os_makedirs {Image} _ _.
Arguments WriteImage {Image} _ _ _.

Inductive conversion_error : Type :=
| IndexError
| ReadError (directory : string)
| MakedirsError (path : string)
| WriteError (path : string).

(** What the conversion does to the destination, in order. *)
Inductive written (Image : Type) : Type :=
| MadeDirs (path : string)
| Wrote (img : Image) (path : string).
Arguments MadeDirs {Image} path.
Arguments Wrote {Image} img path.

Definition dicom_sequence_reader {Image : Type} (tk : converter Image)
    (file_path : string) : Image + conversion_error :=
  let file_path := os_path_dirname file_path in
  match GetGDCMSeriesIDs tk file_path with
  | [] => inr IndexError
  | series_id :: _ =>
      let dicom_names := GetGDCMSeriesFileNames tk file_path series_id in
      match Execute tk dicom_names with
      | Some img => inl img
      | None => inr (ReadError file_path)
      end
  end.

Definition dst_folder (self : DicomParser) (case_name : string) : string :=
  os_path_join (dst self) case_name.

(** [os.path.join(dst_folder, f'{case_name}_{modality}.nii.gz')] *)
Definition nifti_path (self : DicomParser) (case_name modality : string) : string :=
  os_path_join (dst_folder self case_name)
    (case_name +:+ "_" +:+ modality +:+ ".nii.gz").

(** The body of the two loops for one entry of the path memory. *)
Definition convert_entry {Image : Type} (tk : converter Image)
    (self : DicomParser) (case_name modality file_path : string)
    : list (written Image) * option conversion_error :=
  match dicom_sequence_reader tk file_path with
  | inr e => ([], Some e)
  | inl img =>
      if os_makedirs tk (dst_folder self case_name) then
        if WriteImage tk img (nifti_path self case_name modality) then
          ([MadeDirs (dst_folder self case_name);
            Wrote img (nifti_path self case_name modality)], None)
        else ([MadeDirs (dst_folder self case_name)],
              Some (WriteError (nifti_path self case_name modality)))
      else ([], Some (MakedirsError (dst_folder self case_name)))
  end.

(** The loop over the categories of one case; the keys iterated are
    those of the dictionary, each with the location stored for it. *)
Fixpoint convert_modalities {Image : Type} (tk : converter Image)
    (self : DicomParser) (case_name : string) (inner : dict string)
    : list (written Image) * option conversion_error :=
  match inner with
  | [] => ([], None)
  | (modality, file_path) :: rest =>
      match convert_entry tk self case_name modality file_path with
      | (out, Some e) => (out, Some e)
      | (out, None) =>
          let (out', r) := convert_modalities tk self case_name rest in
          (out ++ out', r)
      end
  end.

(** [convert_to_nifti] under [logger.catch]: an exception leaves the loops
    and is logged, not raised; the result is what was written and the
    exception caught, if any. *)
Fixpoint convert_to_nifti {Image : Type} (tk : converter Image)
    (self : DicomParser) (memory : NestedDefaultDict)
    : list (written Image) * option conversion_error :=
  match memory with
  | [] => ([], None)
  | (case_name, inner) :: rest =>
      match convert_modalities tk self case_name inner with
      | (out, Some e) => (out, Some e)
      | (out, None) =>
          let (out', r) := convert_to_nifti tk self rest in
          (out ++ out', r)
      end
  end.

(** The entries of the path memory in iteration order. *)
Definition entries (memory : NestedDefaultDict) : list write :=
  flat_map (fun item : string * dict string =>
              map (fun kv : string * string => (item.1, kv.1, kv.2)) item.2)
           memory.

(** ** [__call__] *)

Record run (Image : Type) : Type := {
  final : state;
  warnings : list warning;
  converted : list (written Image);
  caught : option conversion_error
}.
Arguments final {Image} _.
Arguments warnings {Image} _.
Arguments converted {Image} _.
Arguments caught {Image} _.

Definition DicomParser_call {Image : Type} (tk : converter Image)
    (fs : filesystem) (self : DicomParser) (s : state) : run Image * outcome unit :=
  match scan_folder fs self s with
  | (s1, Raise e) =>
      ({| final := s1; warnings := []; converted := []; caught := None |}, Raise e)
  | (s1, Ok _) =>
      let report := check_path_memory self (path_memory s1) in
      let (out, e) := convert_to_nifti tk self (path_memory s1) in
      ({| final := s1; warnings := report; converted := out; caught := e |}, Ok tt)
  end.

(** ** Vocabulary for the scan *)

(** The files read by a scan of the walk: the first candidate of each
    directory that has one. *)
Definition chosen_files (fs : filesystem) (self : DicomParser)
    (walk : list (string * list string * list string)) : list string :=
  omap (fun d : string * list string * list string =>
          first_candidate fs self d.1.1 d.2) walk.

(** The files read according to a trace. *)
Definition reads (evs : list event) : list string :=
  omap (fun e => match e with DcmRead p => Some p | _ => None end) evs.

(** The last file of a list that matches a (case, category) pair. *)
Definition last_match (fs : filesystem) (self : DicomParser)
    (files : list string) (c m : string) : option string :=
  last (List.filter (fun p => matchesb fs self p c m) files).

(** Two categories, the second of which requires a key of its own. *)
Definition two_category_parser : DicomParser := {|
  src := "/data";
  dst := "/out";
  min_number_of_slices := 1;
  file_types := [""];
  search_tags := [("t2_star", [("SeriesDescription", [["T2"]; ["STAR"]])]);
                  ("flow", [("SequenceName", [["fl"]])])];
  exclude_tags := [];
  log_level := "INFO"
|}.

Definition ds_t2_star : dataset :=
  <["PatientName" := "case1"]>
    (<["SeriesDescription" := "T2 STAR"]> (<["Modality" := "MR"]> ∅)).

(** A data set without [PatientName]. *)
Definition ds_anonymous : dataset :=
  <["Description" := "FOO"]> (<["Kind" := "X"]> ∅).

(** ** Vocabulary for the validator and the conversion *)

(** A case of the path memory that lacks some category, by the count the
    validator makes. *)
Definition incomplete (self : DicomParser) (item : string * dict string) : bool :=
  bool_decide (len (search_tags self) <> len item.2).

(** The warning written for a case. *)
Definition missing_line (self : DicomParser) (item : string * dict string)
    : warning :=
  MissingData item.1
    (py_set (dict_keys (search_tags self)) ∖ py_set (dict_keys item.2)).

(** What is printed for a chosen file. *)
Definition show_block (fs : filesystem) (tags : option (list string))
    (file_path : string) : list printed :=
  match dcmread fs file_path with
  | Some ds => show_dataset tags file_path ds
  | None => []
  end.

(** The conversion as one loop over the entries of the path memory. *)
Fixpoint convert_entries {Image : Type} (tk : converter Image)
    (self : DicomParser) (ws : list write)
    : list (written Image) * option conversion_error :=
  match ws with
  | [] => ([], None)
  | w :: rest =>
      match convert_entry tk self w.1.1 w.1.2 w.2 with
      | (out, Some e) => (out, Some e)
      | (out, None) =>
          let (out', r) := convert_entries tk self rest in (out ++ out', r)
      end
  end.

(** The paths of the images written. *)
Definition paths_written {Image : Type} (out : list (written Image)) : list string :=
  omap (fun w => match w with Wrote _ path => Some path | MadeDirs _ => None end) out.

(** An entry of the path memory converts without error. *)
Definition converts {Image : Type} (tk : converter Image) (self : DicomParser)
    (w : write) : Prop :=
  exists img,
    dicom_sequence_reader tk w.2 = inl img /\
    os_makedirs tk (dst_folder self w.1.1) = true /\
    WriteImage tk img (nifti_path self w.1.1 w.1.2) = true.

(** A converter for the examples: an image is the list of the files it was
    read from; only the directory /data/b holds series. *)
Definition series_tk : converter (list string) := {|
  GetGDCMSeriesIDs := fun d =>
    if decide (d = "/data/b") then ["1.2.840.1"; "1.2.840.2"] else [];
  GetGDCMSeriesFileNames := fun d series_id =>
    [d +:+ "/1.dcm"; d +:+ "/2.dcm"];
  Execute := fun names => Some names;
  os_makedirs := fun _ => true;
  WriteImage := fun _ _ => true
|}.

(** A path memory whose second entry points into a directory without
    series. *)
Definition two_case_memory : NestedDefaultDict :=
  [("case1", [("seriesA", "/data/b/1.dcm")]);
   ("case2", [("seriesA", "/data/empty/1.dcm")]);
   ("case3", [("seriesA", "/data/b/2.dcm")])].

(** * [MergeData.identify_tables] (src/excel/analysis/utils/merge_data.py) *)

(** The attributes of a [MergeData] that [identify_tables] uses. *)
Record MergeData : Type := {
  segments : list string;
  dims : list string;
  axes : list string;
  orientations : list string;
  metrics : list string;
  relevant : list string
}.

(** The combinations of axis and orientation that are skipped. *)
Definition skipped (axis orientation : string) : bool :=
  bool_decide (axis = "short_axis") && bool_decide (orientation = "longit")
  || bool_decide (axis = "long_axis") && bool_decide (orientation = "circumf")
  || bool_decide (axis = "long_axis") && bool_decide (orientation = "radial").

(** [f'{segment}_{dim}_{axis}_{orientation}_{metric}'] *)
Definition table_name (segment dim axis orientation metric : string) : string :=
  segment +:+ "_" +:+ dim +:+ "_" +:+ axis +:+ "_" +:+ orientation +:+ "_" +:+ metric.

(** The names appended by the five nested loops, in order. *)
Definition identified (self : MergeData) : list string :=
  flat_map (fun segment =>
    flat_map (fun dim =>
      flat_map (fun axis =>
        flat_map (fun orientation =>
          if skipped axis orientation then []
          else map (fun metric => table_name segment dim axis orientation metric)
                   (metrics self))
          (orientations self))
        (axes self))
      (dims self))
    (segments self).

(** [identify_tables] appends to [self.relevant]. *)
Definition identify_tables (self : MergeData) : MergeData :=
  {| segments := segments self; dims := dims self; axes := axes self;
     orientations := orientations self; metrics := metrics self;
     relevant := relevant self ++ identified self |}.

(** The pairs of axis and orientation that are kept. *)
Definition kept_pairs (self : MergeData) : list (string * string) :=
  List.filter (fun ao : string * string => negb (skipped ao.1 ao.2))
    (list_prod (axes self) (orientations self)).

(** A strain experiment on both axes. *)
Definition strain_experiment : MergeData := {|
  segments := ["global"; "roi"];
  dims := ["2d"];
  axes := ["short_axis"; "long_axis"];
  orientations := ["radial"; "circumf"; "longit"];
  metrics := ["strain"; "strain_rate"];
  relevant := []
|}.

(** * The tag matcher over the values [ds.get] can return

    [ds.get(key)] gives [None] for an absent key and, for a present one,
    the value of the element: a string, a number, a multi-value or [None]
    for an element without value. [check_tags] is embedded again over
    these values; on data sets of strings it is the embedding above
    (lemma [check_tags_of_strings]). *)
Module PyValue.

Inductive value : Type :=
| PyNone
| PyStr (s : string)
| PyInt (z : Z)
| PyList (items : list string).

(** The truth value tested by [if meta_data:]. *)
Definition truthy (v : value) : bool :=
  match v with
  | PyNone => false
  | PyStr s => str_truthy s
  | PyInt z => negb (bool_decide (z = 0))
  | PyList items => list_truthy items
  end.

(** [x in v] for a string [x]: a substring test on a string, membership
    in a multi-value; [None] where Python raises a TypeError. *)
Definition contains (x : string) (v : value) : option bool :=
  match v with
  | PyStr s => Some (str_in x s)
  | PyList items => Some (bool_decide (x ∈ items))
  | PyInt _ => None
  | PyNone => None
  end.


(** [ds.get(key)] *)
Definition get (ds : gmap string value) (key : string) : value :=
  default PyNone (ds !! key).

Definition not_iterable : exn := TypeError "argument is not iterable".

(** The truth value of [[x for x in group if x in meta_data]]; every
    [x in meta_data] is evaluated, in order. *)
Fixpoint any_in (group : value_group) (meta_data : value) : outcome bool :=
  match group with
  | [] => Ok false
  | x :: rest =>
      match contains x meta_data with
      | None => Raise not_iterable
      | Some b =>
          match any_in rest meta_data with
          | Ok b' => Ok (b || b')
          | Raise e => Raise e
          end
      end
  end.

Fixpoint check_values (search_values : list value_group) (meta_data : value)
    (counter : Z) : outcome Z :=
  match search_values with
  | [] => Ok counter
  | group :: rest =>
      match any_in group meta_data with
      | Ok hit =>
          check_values rest meta_data (if hit then counter + 1 else counter)
      | Raise e => Raise e
      end
  end.

Fixpoint check_keys (tags : rules) (keys : list string) (ds : gmap string value)
    (case_name : string) (counter count_values : Z) : outcome (Z * Z) :=
  match keys with
  | [] => Ok (counter, count_values)
  | key :: rest =>
      let meta_data := get ds key in
      if truthy meta_data then
        match dict_get tags key with
        | Some search_values =>
            match check_values search_values meta_data counter with
            | Ok counter' =>
                check_keys tags rest ds case_name counter'
                  (count_values + len search_values)
            | Raise e => Raise e
            end
        | None => Raise (KeyError key)
        end
      else Raise (missing_value_error case_name key)
  end.

Definition check_tags (self : DicomParser) (ds : gmap string value)
    (modality case_name : string) : outcome bool :=
  match dict_get (search_tags self) modality with
  | None => Raise (KeyError modality)
  | Some tags =>
      match check_keys tags (dict_keys tags) ds case_name 0 0 with
      | Ok (counter, count_values) =>
          Ok (if bool_decide (counter = count_values)
                 && negb (bool_decide (counter = 0))
              then true else false)
      | Raise e => Raise e
      end
  end.

End PyValue.

(** Data sets in which the key [Kind] is present with a false value. *)
Definition ds_zero_kind : gmap string PyValue.value :=
  <["Description" := PyValue.PyStr "FOO-scan"]> (<["Kind" := PyValue.PyInt 0]> ∅).

Definition ds_none_kind : gmap string PyValue.value :=
  <["Description" := PyValue.PyStr "FOO-scan"]> (<["Kind" := PyValue.PyNone]> ∅).

Definition ds_no_items_kind : gmap string PyValue.value :=
  <["Description" := PyValue.PyStr "FOO-scan"]> (<["Kind" := PyValue.PyList []]> ∅).

(** * Conditions under which a scan meets no error *)

(** The data set has a true value for every key of every category. *)
Definition has_required_keys (self : DicomParser) (ds : dataset) : Prop :=
  forall m tags key,
    dict_get (search_tags self) m = Some tags ->
    key ∈ dict_keys tags ->
    falsy ds key = false.

(** Nothing in a directory makes the scan raise: the file it chooses can
    be read and has the required keys; without a candidate, the filter
    rejects every file without raising. *)
Definition dir_scannable (fs : filesystem) (self : DicomParser)
    (d : string * list string * list string) : Prop :=
  match first_candidate fs self d.1.1 d.2 with
  | Some p => exists ds, dcmread fs p = Some ds /\ has_required_keys self ds
  | None =>
      forall file, file ∈ d.2 -> check_file fs self (os_path_join d.1.1 file) = Ok 0
  end.

(** * Properties *)

(** ** Strings *)

Lemma app_String (c : Ascii.ascii) (s t : string) :
  String c s +:+ t = String c (s +:+ t).
Proof. reflexivity. Qed.

Lemma app_empty_l (s : string) : "" +:+ s = s.
Proof. reflexivity. Qed.

Lemma prefix_spec (x s : string) :
  String.prefix x s = true <-> exists post, s = x +:+ post.
Proof.
  revert s. induction x as [|a x IH]; intros s.
  - split; [intros _; by exists s | by destruct s].
  - destruct s as [|b s]; simpl.
    + split; [done | intros [post H]; discriminate].
    + destruct (Ascii.ascii_dec a b) as [->|Hab].
      * rewrite IH. split; intros [post H]; exists post;
          rewrite app_String in *; congruence.
      * split; [done | intros [post H]; rewrite app_String in H; congruence].
Qed.

Lemma str_in_empty (x : string) : str_in x "" = String.prefix x "" || false.
Proof. reflexivity. Qed.

Lemma str_in_String (x : string) (a : Ascii.ascii) (s : string) :
  str_in x (String a s) = String.prefix x (String a s) || str_in x s.
Proof. reflexivity. Qed.

Lemma str_in_spec (x s : string) :
  str_in x s = true <-> exists pre post, s = pre +:+ x +:+ post.
Proof.
  induction s as [|a s IH]; [rewrite str_in_empty | rewrite str_in_String].
  - rewrite orb_false_r, prefix_spec. split.
    + intros [post H]. by exists "", post.
    + intros [pre [post H]]. destruct pre; [by exists post | discriminate].
  - rewrite orb_true_iff, prefix_spec, IH. split.
    + intros [[post H] | [pre [post H]]].
      * by exists "", post.
      * exists (String a pre), post. rewrite app_String. by rewrite H.
    + intros [pre [post H]]. destruct pre as [|b pre].
      * left. by exists post.
      * right. exists pre, post. rewrite app_String in H. congruence.
Qed.

Lemma endswith_spec (s x : string) :
  endswith s x = true <-> exists pre, s = pre +:+ x.
Proof.
  induction s as [|a s IH]; simpl.
  - rewrite orb_false_r. case_decide as H; split; try done.
    + intros _. by exists "".
    + intros [pre Hp]. destruct pre; [by rewrite app_empty_l in Hp | discriminate].
  - rewrite orb_true_iff, IH. split.
    + intros [H | [pre H]].
      * case_decide as Hx; [|done]. by exists "".
      * exists (String a pre). rewrite app_String. by rewrite H.
    + intros [pre H]. destruct pre as [|b pre].
      * left. rewrite decide_True; done.
      * right. exists pre. rewrite app_String in H. congruence.
Qed.

Lemma endswith_empty (s : string) : endswith s "" = true.
Proof.
  apply endswith_spec. exists s. induction s; [done|].
  rewrite app_String. congruence.
Qed.

Lemma list_truthy_filter {A : Type} (f : A -> bool) (l : list A) :
  list_truthy (List.filter f l) = existsb f l.
Proof.
  induction l as [|a l IH]; simpl; [done|].
  destruct (f a); simpl; done.
Qed.

Lemma existsb_elem_of {A : Type} (f : A -> bool) (l : list A) :
  existsb f l = true <-> exists x, x ∈ l /\ f x = true.
Proof.
  rewrite existsb_exists. split; intros [x [H1 H2]]; exists x; split; try done;
    by apply list_elem_of_In.
Qed.

(** ** Dictionaries *)

Lemma dict_get_Some_elem {V : Type} (d : dict V) (k : string) (v : V) :
  dict_get d k = Some v -> (k, v) ∈ d.
Proof.
  induction d as [|[k' v'] d IH]; simpl; [done|].
  case_decide as Hk.
  - intros [= ->]. subst. left.
  - intros H. right. auto.
Qed.

Lemma dict_get_Some_key {V : Type} (d : dict V) (k : string) (v : V) :
  dict_get d k = Some v -> k ∈ dict_keys d.
Proof.
  intros H%dict_get_Some_elem. unfold dict_keys.
  apply list_elem_of_fmap_2' with (x := (k, v)); done.
Qed.

Lemma dict_get_key {V : Type} (d : dict V) (k : string) :
  k ∈ dict_keys d -> exists v, dict_get d k = Some v.
Proof.
  induction d as [|[k' v'] d IH]; simpl.
  - intros H. by apply elem_of_nil in H.
  - intros H. case_decide as Hk; [by eexists|].
    apply elem_of_cons in H as [H|H]; [simpl in H; congruence | auto].
Qed.

Lemma dict_get_None {V : Type} (d : dict V) (k : string) :
  dict_get d k = None <-> k ∉ dict_keys d.
Proof.
  split.
  - intros H Hk. apply dict_get_key in Hk as [v Hv]. congruence.
  - intros H. destruct (dict_get d k) as [v|] eqn:E; [|done].
    apply dict_get_Some_key in E. done.
Qed.

Lemma dict_get_elem_wf {V : Type} (d : dict V) (k : string) (v : V) :
  dict_wf d -> (k, v) ∈ d -> dict_get d k = Some v.
Proof.
  unfold dict_wf. induction d as [|[k' v'] d IH]; simpl.
  - intros _ H. by apply elem_of_nil in H.
  - intros Hnd H. apply NoDup_cons in Hnd as [Hk' Hnd].
    apply elem_of_cons in H as [H|H].
    + injection H as -> ->. by rewrite decide_True.
    + case_decide as Hk; [|auto]. subst k'. exfalso. apply Hk'.
      apply list_elem_of_fmap_2' with (x := (k, v)); done.
Qed.

Lemma dict_get_set {V : Type} (d : dict V) (k k' : string) (v : V) :
  dict_get (dict_set d k v) k' = if decide (k = k') then Some v else dict_get d k'.
Proof.
  induction d as [|[k0 v0] d IH]; simpl.
  - repeat case_decide; congruence.
  - destruct (decide (k0 = k)) as [->|Hk0]; simpl.
    + repeat case_decide; congruence.
    + rewrite IH. repeat case_decide; congruence.
Qed.

Lemma dict_set_id {V : Type} (d : dict V) (k : string) (v : V) :
  dict_get d k = Some v -> dict_set d k v = d.
Proof.
  induction d as [|[k0 v0] d IH]; simpl; [done|].
  case_decide as Hk.
  - by intros [= ->].
  - intros H. by rewrite IH.
Qed.

Lemma dict_set_set {V : Type} (d : dict V) (k : string) (v v' : V) :
  dict_set (dict_set d k v) k v' = dict_set d k v'.
Proof.
  induction d as [|[k0 v0] d IH]; simpl.
  - by rewrite decide_True.
  - destruct (decide (k0 = k)) as [->|Hk0]; simpl.
    + by rewrite decide_True.
    + rewrite decide_False by done. by rewrite IH.
Qed.

(** Two writes to different keys commute as soon as one of the keys is
    already there (two new keys are appended in the order written). *)
Lemma dict_set_comm {V : Type} (d : dict V) (k k' : string) (v v' : V) :
  k <> k' -> k ∈ dict_keys d ->
  dict_set (dict_set d k v) k' v' = dict_set (dict_set d k' v') k v.
Proof.
  intros Hne. induction d as [|[k0 v0] d IH]; simpl.
  - intros H. by apply elem_of_nil in H.
  - intros H. destruct (decide (k0 = k)) as [->|Hk0]; simpl.
    + rewrite !decide_False by done. simpl. by rewrite decide_True.
    + destruct (decide (k0 = k')) as [->|Hk0']; simpl.
      * by rewrite decide_False.
      * rewrite decide_False by done. rewrite IH; [done|].
        apply elem_of_cons in H as [H|H]; [simpl in H; congruence | done].
Qed.

Lemma dict_keys_set {V : Type} (d : dict V) (k : string) (v : V) :
  k ∈ dict_keys d -> dict_keys (dict_set d k v) = dict_keys d.
Proof.
  induction d as [|[k0 v0] d IH]; simpl.
  - intros H. by apply elem_of_nil in H.
  - intros H. case_decide as Hk; simpl; [done|].
    rewrite IH; [done|].
    apply elem_of_cons in H as [H|H]; [simpl in H; congruence | done].
Qed.

Lemma dict_set_elem {V : Type} (d : dict V) (k : string) (v : V) (x : string * V) :
  x ∈ dict_set d k v -> x ∈ d \/ x = (k, v).
Proof.
  induction d as [|[k0 v0] d IH]; simpl.
  - intros H. apply list_elem_of_singleton in H. by right.
  - case_decide as Hk.
    + intros H. apply elem_of_cons in H as [H|H].
      * right. congruence.
      * left. by right.
    + intros H. apply elem_of_cons in H as [H|H].
      * left. rewrite H. left.
      * destruct (IH H) as [H'|H']; [left; by right | by right].
Qed.

(** ** Candidate filter: file type *)

Lemma check_file_type_spec (self : DicomParser) (file_name : string) :
  check_file_type self file_name = true <->
  exists x, x ∈ file_types self /\ exists pre, file_name = pre +:+ x.
Proof.
  unfold check_file_type. rewrite list_truthy_filter.
  destruct (existsb _ _) eqn:E.
  - apply existsb_elem_of in E as [x [Hx He]]. split; [|done].
    intros _. exists x. split; [done|]. by apply endswith_spec.
  - split; [done|]. intros [x [Hx He]].
    apply endswith_spec in He.
    assert (existsb (fun x => endswith file_name x) (file_types self) = true)
      by (apply existsb_elem_of; eauto).
    congruence.
Qed.

(** ** Tag matcher *)

Lemma group_satisfied_spec (meta_data : string) (group : value_group) :
  group_satisfied meta_data group = true <->
  exists x pre post, x ∈ group /\ meta_data = pre +:+ x +:+ post.
Proof.
  unfold group_satisfied. rewrite existsb_elem_of. split.
  - intros [x [Hx Hs]]. apply str_in_spec in Hs as [pre [post Hs]]. eauto.
  - intros [x [pre [post [Hx Hs]]]]. exists x. split; [done|].
    apply str_in_spec. eauto.
Qed.

Lemma filter_length_bound {A : Type} (f : A -> bool) (l : list A) :
  (length (List.filter f l) <= length l)%nat.
Proof.
  induction l as [|a l IH]; simpl; [lia|]. destruct (f a); simpl; lia.
Qed.

Lemma check_values_count (search_values : list value_group)
    (meta_data : string) (counter : Z) :
  check_values search_values meta_data counter =
  counter + Z.of_nat (length (List.filter (group_satisfied meta_data) search_values)).
Proof.
  revert counter. induction search_values as [|g l IH]; intros counter; simpl.
  - lia.
  - rewrite IH, list_truthy_filter. fold (group_satisfied meta_data g).
    destruct (group_satisfied meta_data g); simpl; lia.
Qed.

Lemma satisfied_le_total (tags : rules) (ds : dataset) :
  (satisfied_groups tags ds <= total_groups tags)%nat.
Proof.
  unfold satisfied_groups, total_groups.
  induction tags as [|[k g] tags IH]; simpl; [lia|].
  assert (satisfied_in ds (k, g) <= length g)%nat; [|lia].
  unfold satisfied_in. simpl. destruct (ds !! k); [|lia].
  apply filter_length_bound.
Qed.

(** With every key present and true, the loop over the keys ends with the
    two counters advanced by the satisfied and by the declared groups. *)
Lemma check_keys_counts (tags items : rules) (ds : dataset) (case_name : string)
    (counter count_values : Z) :
  (forall k g, (k, g) ∈ items -> dict_get tags k = Some g /\ falsy ds k = false) ->
  check_keys tags (dict_keys items) ds case_name counter count_values =
  Ok (counter + Z.of_nat (satisfied_groups items ds),
      count_values + Z.of_nat (total_groups items)).
Proof.
  revert counter count_values.
  induction items as [|[k g] items IH]; intros counter count_values H; simpl.
  - do 2 f_equal; unfold satisfied_groups, total_groups; simpl; lia.
  - destruct (H k g) as [Hg Hf]; [left|].
    unfold falsy in Hf. destruct (ds !! k) as [meta|] eqn:Ek; [|done].
    destruct (str_truthy meta); [|done].
    rewrite Hg, IH by (intros; apply H; by right).
    rewrite check_values_count.
    unfold satisfied_groups, total_groups, len. simpl.
    unfold satisfied_in at 2. simpl. rewrite Ek.
    do 2 f_equal; lia.
Qed.

(** The loop over the keys raises at the first key without a true value. *)
Lemma check_keys_falsy (tags : rules) (keys : list string) (ds : dataset)
    (case_name key : string) (counter count_values : Z) :
  (forall k, k ∈ keys -> k ∈ dict_keys tags) ->
  key ∈ keys -> falsy ds key = true ->
  is_ValueError (check_keys tags keys ds case_name counter count_values).
Proof.
  revert counter count_values.
  induction keys as [|k keys IH]; intros counter count_values Hsub Hin Hf.
  - by apply elem_of_nil in Hin.
  - simpl. destruct (ds !! k) as [meta|] eqn:Ek; [|done].
    destruct (str_truthy meta) eqn:Et; [|done].
    destruct (dict_get_key tags k) as [g Hg]; [apply Hsub; left|].
    rewrite Hg. apply IH; [intros; apply Hsub; by right | | done].
    apply elem_of_cons in Hin as [->|Hin]; [|done].
    unfold falsy in Hf. rewrite Ek, Et in Hf. done.
Qed.

Lemma check_keys_raises_only_ValueError (tags : rules) (keys : list string)
    (ds : dataset) (case_name : string) (counter count_values : Z) (e : exn) :
  (forall k, k ∈ keys -> k ∈ dict_keys tags) ->
  check_keys tags keys ds case_name counter count_values = Raise e ->
  exists msg, e = ValueError msg.
Proof.
  revert counter count_values.
  induction keys as [|k keys IH]; intros counter count_values Hsub; simpl.
  - done.
  - destruct (ds !! k) as [meta|]; [|intros [= <-]; eexists; reflexivity].
    destruct (str_truthy meta); [|intros [= <-]; eexists; reflexivity].
    destruct (dict_get_key tags k) as [g Hg]; [apply Hsub; left|].
    rewrite Hg. apply IH. intros; apply Hsub; by right.
Qed.

Lemma check_tags_raises_only_ValueError (self : DicomParser) (ds : dataset)
    (modality case_name : string) (e : exn) :
  modality ∈ dict_keys (search_tags self) ->
  check_tags self ds modality case_name = Raise e ->
  exists msg, e = ValueError msg.
Proof.
  intros Hm. unfold check_tags.
  destruct (dict_get_key _ _ Hm) as [tags ->].
  destruct (check_keys _ _ _ _ _ _) as [[c n]|e'] eqn:E; [done|].
  intros [= <-]. eapply check_keys_raises_only_ValueError; [|exact E]. done.
Qed.

Lemma check_tags_falsy (self : DicomParser) (ds : dataset)
    (modality case_name key : string) (tags : rules) :
  dict_get (search_tags self) modality = Some tags ->
  key ∈ dict_keys tags -> falsy ds key = true ->
  is_ValueError (check_tags self ds modality case_name).
Proof.
  intros Ht Hk Hf. unfold check_tags. rewrite Ht.
  pose proof (check_keys_falsy tags (dict_keys tags) ds case_name key 0 0
                (fun _ H => H) Hk Hf) as H.
  destruct (check_keys _ _ _ _ _ _) as [[c n]|e]; done.
Qed.

Lemma check_tags_complete (self : DicomParser) (ds : dataset)
    (modality case_name : string) (tags : rules) :
  dict_get (search_tags self) modality = Some tags ->
  dict_wf tags ->
  (forall key, key ∈ dict_keys tags -> falsy ds key = false) ->
  check_tags self ds modality case_name =
  Ok (bool_decide (satisfied_groups tags ds = total_groups tags
                   /\ total_groups tags <> 0%nat)).
Proof.
  intros Ht Hwf Hp. unfold check_tags. rewrite Ht.
  rewrite (check_keys_counts tags tags).
  - f_equal. repeat case_bool_decide; simpl; try done; lia.
  - intros k g Hkg. split; [by apply dict_get_elem_wf|].
    apply Hp. apply list_elem_of_fmap_2' with (x := (k, g)); done.
Qed.

Lemma filter_length_all {A : Type} (f : A -> bool) (l : list A) :
  length (List.filter f l) = length l <-> forall x, x ∈ l -> f x = true.
Proof.
  induction l as [|a l IH]; simpl.
  - split; [|done]. intros _ x H. by apply elem_of_nil in H.
  - pose proof (filter_length_bound f l) as Hb.
    destruct (f a) eqn:Ea; simpl.
    + split.
      * intros H x Hx. apply elem_of_cons in Hx as [->|Hx]; [done|].
        apply IH; [lia | done].
      * intros H. f_equal. apply IH. intros x Hx. apply H. by right.
    + split; [lia|]. intros H. rewrite H in Ea; [done | left].
Qed.

(** All declared groups are counted as satisfied exactly when each of
    them is satisfied by the value of its key. *)
Lemma satisfied_all_groups (tags : rules) (ds : dataset) :
  (forall key, key ∈ dict_keys tags -> falsy ds key = false) ->
  satisfied_groups tags ds = total_groups tags <->
  forall key groups g, (key, groups) ∈ tags -> g ∈ groups ->
    exists meta_data, ds !! key = Some meta_data /\ group_satisfied meta_data g = true.
Proof.
  unfold satisfied_groups, total_groups.
  induction tags as [|[k gs] tags IH]; intros Hp; simpl.
  - split; [|done]. intros _ key groups g H. by apply elem_of_nil in H.
  - pose proof (satisfied_le_total tags ds) as Hle.
    unfold satisfied_groups, total_groups in Hle.
    assert (Hk : falsy ds k = false) by (apply Hp; left).
    unfold falsy in Hk. unfold satisfied_in at 1. simpl.
    destruct (ds !! k) as [meta|] eqn:Ek; [|done].
    pose proof (filter_length_bound (group_satisfied meta) gs) as Hb.
    assert (Hp' : forall key, key ∈ dict_keys tags -> falsy ds key = false)
      by (intros; apply Hp; by right).
    specialize (IH Hp'). split.
    + intros H key groups g Hin Hg.
      apply elem_of_cons in Hin as [Hin|Hin].
      * injection Hin as -> ->. exists meta. split; [done|].
        assert (Hall : length (List.filter (group_satisfied meta) gs) = length gs)
          by lia.
        by apply (proj1 (filter_length_all _ _) Hall).
      * assert (Hrest : sum_list (map (satisfied_in ds) tags) =
                        sum_list (map (fun item : string * list value_group =>
                                         length item.2) tags)) by lia.
        exact (proj1 IH Hrest key groups g Hin Hg).
    + intros H. f_equal.
      * apply filter_length_all. intros g Hg.
        destruct (H k gs g) as [meta' [Hm Hs]]; [left | done |]. congruence.
      * apply IH. intros key groups g Hin Hg. apply (H key groups g); [by right | done].
Qed.

Example str_in_case_sensitive : str_in "t2" "T2 STAR" = false /\ str_in "T2" "T2 STAR" = true.
Proof. split; reflexivity. Qed.

(** C3, as stated, fails: with no accepted suffix configured the suffix
    check rejects a file name. *)
Lemma check_file_type_no_suffix_rejects :
  file_types no_types_parser = [] /\
  check_file_type no_types_parser "image.dcm" = false.
Proof. split; reflexivity. Qed.

(** C3 (amended): if the configured list of accepted suffixes is empty the
    suffix check rejects every file name; it accepts every file name when
    the list contains the empty suffix. *)
Theorem check_file_type_empty_list (self : DicomParser) (file_name : string) :
  (file_types self = [] -> check_file_type self file_name = false) /\
  ("" ∈ file_types self -> check_file_type self file_name = true).
Proof.
  split.
  - intros H. unfold check_file_type. by rewrite H.
  - intros H. apply check_file_type_spec. exists "". split; [done|].
    apply endswith_spec, endswith_empty.
Qed.

Lemma check_file_type_empty_list_witness :
  check_file_type no_types_parser "image.dcm" = false /\
  check_file_type main_parser "image.dcm" = true.
Proof.
  split.
  - apply (proj1 (check_file_type_empty_list no_types_parser "image.dcm")).
    reflexivity.
  - apply (proj2 (check_file_type_empty_list main_parser "image.dcm")).
    simpl. left.
Defined.

(** C1: when every key required by a category is present with a non-empty
    value, [check_tags] returns true exactly when the number of satisfied
    value-groups equals the number of declared value-groups and that number
    is not zero; a group is satisfied exactly when one of its substrings
    occurs in the value of its key and counts once; with fewer satisfied
    groups than declared, or with no group declared, the result is false. *)
Theorem check_tags_all_groups (self : DicomParser) (ds : dataset)
    (modality case_name : string) (tags : rules) :
  dict_get (search_tags self) modality = Some tags ->
  dict_wf tags ->
  (forall key, key ∈ dict_keys tags -> exists v, ds !! key = Some v /\ v <> "") ->
  (exists b, check_tags self ds modality case_name = Ok b) /\
  (check_tags self ds modality case_name = Ok true <->
   satisfied_groups tags ds = total_groups tags /\ total_groups tags <> 0%nat) /\
  (satisfied_groups tags ds = total_groups tags <->
   forall key groups g, (key, groups) ∈ tags -> g ∈ groups ->
     exists meta_data, ds !! key = Some meta_data /\
       exists x pre post, x ∈ g /\ meta_data = pre +:+ x +:+ post) /\
  (satisfied_groups tags ds <= total_groups tags)%nat /\
  ((satisfied_groups tags ds < total_groups tags)%nat ->
   check_tags self ds modality case_name = Ok false) /\
  (total_groups tags = 0%nat ->
   check_tags self ds modality case_name = Ok false).
Proof.
  intros Ht Hwf Hp.
  assert (Hf : forall key, key ∈ dict_keys tags -> falsy ds key = false).
  { intros key Hk. destruct (Hp key Hk) as [v [Hv Hne]].
    unfold falsy. rewrite Hv. by destruct v. }
  pose proof (check_tags_complete self ds modality case_name tags Ht Hwf Hf) as E.
  rewrite E. split; [eauto|]. split; [|split; [|split; [|split]]].
  - split.
    + intros [= H]. by apply bool_decide_eq_true in H.
    + intros H. f_equal. by apply bool_decide_eq_true.
  - split.
    2: { intros H. apply satisfied_all_groups; [done|].
         intros key groups g Hin Hg.
         destruct (H key groups g Hin Hg) as [meta [Hm Hs]].
         exists meta. split; [done|]. by apply group_satisfied_spec. }
    intros H key groups g Hin Hg.
    destruct (proj1 (satisfied_all_groups tags ds Hf) H key groups g Hin Hg)
      as [meta [Hm Hs]].
    exists meta. split; [done|]. by apply group_satisfied_spec.
  - apply satisfied_le_total.
  - intros H. f_equal. apply bool_decide_eq_false. lia.
  - intros H. f_equal. apply bool_decide_eq_false. lia.
Qed.

Lemma check_tags_all_groups_witness :
  check_tags series_parser ds_foo_x "seriesA" "case1" = Ok true /\
  check_tags series_parser ds_foo_y "seriesA" "case1" = Ok false.
Proof.
  set (tags := [("Description", [["FOO"]]); ("Kind", [["X"]])] : rules).
  assert (Ht : dict_get (search_tags series_parser) "seriesA" = Some tags)
    by reflexivity.
  assert (Hwf : dict_wf tags) by (unfold dict_wf; compute_done).
  assert (Hx : forall key, key ∈ dict_keys tags ->
                 exists v, ds_foo_x !! key = Some v /\ v <> "").
  { intros key Hk. simpl in Hk.
    apply elem_of_cons in Hk as [->|Hk]; [by eexists|].
    apply elem_of_cons in Hk as [->|Hk]; [by eexists|].
    by apply elem_of_nil in Hk. }
  assert (Hy : forall key, key ∈ dict_keys tags ->
                 exists v, ds_foo_y !! key = Some v /\ v <> "").
  { intros key Hk. simpl in Hk.
    apply elem_of_cons in Hk as [->|Hk]; [by eexists|].
    apply elem_of_cons in Hk as [->|Hk]; [by eexists|].
    by apply elem_of_nil in Hk. }
  destruct (check_tags_all_groups series_parser ds_foo_x "seriesA" "case1"
              tags Ht Hwf Hx) as (_ & Hiff & _).
  destruct (check_tags_all_groups series_parser ds_foo_y "seriesA" "case1"
              tags Ht Hwf Hy) as (_ & _ & _ & _ & Hlt & _).
  split.
  - apply Hiff. split; [reflexivity | vm_compute; lia].
  - apply Hlt. vm_compute. lia.
Defined.

Lemma check_keys_delete_empty (tags : rules) (keys : list string) (ds : dataset)
    (case_name key : string) (counter count_values : Z) :
  ds !! key = Some "" ->
  check_keys tags keys ds case_name counter count_values =
  check_keys tags keys (delete key ds) case_name counter count_values.
Proof.
  intros He. revert counter count_values.
  induction keys as [|k keys IH]; intros counter count_values;
    cbn [check_keys]; [done|].
  unfold dataset in *.
  destruct (decide (k = key)) as [->|Hne].
  - rewrite He, lookup_delete_eq. done.
  - rewrite lookup_delete_ne by done.
    destruct (ds !! k) as [meta|]; [|done].
    destruct (str_truthy meta); [|done].
    destruct (dict_get tags k); [|done]. apply IH.
Qed.

(** In a data set of strings, a required key that is present with the
    empty string as value makes [check_tags] raise the ValueError it raises
    for an absent key: the result is the one obtained with the key removed
    from the data set. *)
Lemma check_tags_empty_string_raises (self : DicomParser) (ds : dataset)
    (modality case_name key : string) (tags : rules) :
  dict_get (search_tags self) modality = Some tags ->
  key ∈ dict_keys tags ->
  ds !! key = Some "" ->
  is_ValueError (check_tags self ds modality case_name) /\
  check_tags self ds modality case_name =
  check_tags self (delete key ds) modality case_name.
Proof.
  intros Ht Hk He. split.
  - apply (check_tags_falsy self ds modality case_name key tags Ht Hk).
    unfold falsy. by rewrite He.
  - unfold check_tags. rewrite Ht.
    by rewrite (check_keys_delete_empty tags _ ds case_name key 0 0 He).
Qed.

(** ** Candidate filter *)

Lemma check_file_values (fs : filesystem) (self : DicomParser)
    (file_path : string) (c : Z) :
  check_file fs self file_path = Ok c -> c = 0 \/ c = 1.
Proof.
  unfold check_file. destruct (os_listdir _ _); [|done].
  intros [= <-].
  destruct (_ && _), (negb _), (bool_decide _); simpl; auto.
Qed.

Lemma excluded_spec (self : DicomParser) (file_path : string) :
  list_truthy (List.filter (fun x => str_in x file_path) (exclude_tags self)) = false
  <-> forall x, x ∈ exclude_tags self ->
        ~ exists pre post, file_path = pre +:+ x +:+ post.
Proof.
  rewrite list_truthy_filter. split.
  - intros H x Hx Hs. apply str_in_spec in Hs.
    assert (existsb (fun x => str_in x file_path) (exclude_tags self) = true)
      by (apply existsb_elem_of; eauto).
    congruence.
  - intros H. destruct (existsb _ _) eqn:E; [|done].
    apply existsb_elem_of in E as [x [Hx Hs]].
    apply str_in_spec in Hs. by destruct (H x Hx).
Qed.

(** C7: [check_file] accepts a path exactly when all checks pass: the path
    is a regular file, its name ends with an accepted suffix, the path
    contains no excluded substring and the containing directory has at
    least the configured number of entries; a directory with fewer entries
    makes it reject whatever the other checks say. *)
Theorem check_file_all_checks (fs : filesystem) (self : DicomParser)
    (file_path : string) :
  (passes fs self file_path <->
   os_path_isfile fs file_path = true /\
   (exists x, x ∈ file_types self /\ exists pre, file_path = pre +:+ x) /\
   (forall x, x ∈ exclude_tags self ->
      ~ exists pre post, file_path = pre +:+ x +:+ post) /\
   exists entries, os_listdir fs (os_path_dirname file_path) = Some entries /\
     min_number_of_slices self <= len entries) /\
  (forall entries,
     os_listdir fs (os_path_dirname file_path) = Some entries ->
     len entries < min_number_of_slices self ->
     check_file fs self file_path = Ok 0).
Proof.
  unfold passes, check_file. split.
  - rewrite <- check_file_type_spec, <- excluded_spec.
    destruct (os_listdir fs (os_path_dirname file_path)) as [entries|].
    + split.
      * intros [c [[= <-] Hc]].
        destruct (os_path_isfile fs file_path); [|done].
        destruct (check_file_type self file_path); [|done].
        destruct (list_truthy _); [done|].
        case_bool_decide; [|done].
        repeat split; try done. exists entries. split; [done | lia].
      * intros (-> & -> & -> & entries' & [= <-] & Hmin).
        eexists. split; [reflexivity|].
        rewrite bool_decide_eq_true_2 by lia. done.
    + split.
      * by intros [c [? ?]].
      * by intros (_ & _ & _ & entries' & ? & _).
  - intros entries -> Hlt. rewrite bool_decide_eq_false_2 by lia.
    f_equal. simpl. lia.
Qed.

Lemma check_file_all_checks_witness :
  passes series_fs series_parser "/data/b/1.dcm" /\
  check_file series_fs series_parser "/data/c/1.dcm" = Ok 0.
Proof.
  destruct (check_file_all_checks series_fs series_parser "/data/b/1.dcm")
    as [Hiff _].
  destruct (check_file_all_checks series_fs series_parser "/data/c/1.dcm")
    as [_ Hfew].
  split.
  - apply Hiff. split; [reflexivity|]. split; [|split].
    + exists ".dcm". split; [left|]. by exists "/data/b/1".
    + apply excluded_spec. reflexivity.
    + exists ["1.dcm"; "2.dcm"]. split; [reflexivity | vm_compute; discriminate].
  - apply (Hfew ["1.dcm"]); [reflexivity | reflexivity].
Defined.

(** ** The monad *)

Lemma bind_Ok {A B : Type} (m : M A) (k : A -> M B) (s s' : state) (a : A) :
  m s = (s', Ok a) -> bind m k s = k a s'.
Proof. intros H. unfold bind. by rewrite H. Qed.

Lemma bind_Raise {A B : Type} (m : M A) (k : A -> M B) (s s' : state) (e : exn) :
  m s = (s', Raise e) -> bind m k s = (s', Raise e).
Proof. intros H. unfold bind. by rewrite H. Qed.

Lemma log_events_nil (s : state) : log_events s [] = s.
Proof. destruct s. unfold log_events. simpl. by rewrite app_nil_r. Qed.

Lemma log_events_app (s : state) (evs evs' : list event) :
  log_events (log_events s evs) evs' = log_events s (evs ++ evs').
Proof. unfold log_events. simpl. by rewrite app_assoc. Qed.

(** ** Classifier: one file *)

Lemma search_modalities_cons (self : DicomParser) (modality : string)
    (rest : list string) (ds : dataset) (case_name file_path : string) (s : state) :
  search_modalities self (modality :: rest) ds case_name file_path s =
  match check_tags self ds modality case_name with
  | Ok true =>
      search_modalities self rest ds case_name file_path
        {| path_memory := memory_set (path_memory s) case_name modality file_path;
           trace := trace s |}
  | Ok false => search_modalities self rest ds case_name file_path s
  | Raise e => (s, Raise e)
  end.
Proof.
  cbn [search_modalities]. unfold bind, lift.
  destruct (check_tags self ds modality case_name) as [[|]|e]; reflexivity.
Qed.

Lemma search_modalities_trace (self : DicomParser) (modalities : list string)
    (ds : dataset) (case_name file_path : string) (s : state) :
  trace (search_modalities self modalities ds case_name file_path s).1 = trace s.
Proof.
  revert s. induction modalities as [|m ms IH]; intros s; [done|].
  rewrite search_modalities_cons.
  destruct (check_tags self ds m case_name) as [[|]|e]; [|done..].
  by rewrite IH.
Qed.

Lemma meta_data_search_unfold (fs : filesystem) (self : DicomParser)
    (file_path : string) (s : state) :
  meta_data_search fs self file_path s =
  match dcmread fs file_path with
  | None => (log_events s [DcmRead file_path], Raise (OSError file_path))
  | Some ds =>
      search_modalities self (dict_keys (search_tags self)) ds
        (patient_name ds) file_path (log_events s [DcmRead file_path])
  end.
Proof.
  unfold meta_data_search, bind, emit, raise, log_events.
  destruct (dcmread fs file_path); reflexivity.
Qed.

Lemma meta_data_search_trace (fs : filesystem) (self : DicomParser)
    (file_path : string) (s : state) :
  trace (meta_data_search fs self file_path s).1 = trace s ++ [DcmRead file_path].
Proof.
  rewrite meta_data_search_unfold. destruct (dcmread fs file_path); [|done].
  by rewrite search_modalities_trace.
Qed.

(** The loop over the categories raises a ValueError as soon as one
    category requires a key without a true value. *)
Lemma search_modalities_falsy (self : DicomParser) (modalities : list string)
    (ds : dataset) (case_name file_path modality key : string) (tags : rules)
    (s : state) :
  (forall m, m ∈ modalities -> m ∈ dict_keys (search_tags self)) ->
  modality ∈ modalities ->
  dict_get (search_tags self) modality = Some tags ->
  key ∈ dict_keys tags -> falsy ds key = true ->
  exists msg,
    (search_modalities self modalities ds case_name file_path s).2
    = Raise (ValueError msg).
Proof.
  intros Hsub Hin Ht Hk Hf. revert s.
  induction modalities as [|m ms IH]; intros s.
  - by apply elem_of_nil in Hin.
  - rewrite search_modalities_cons.
    destruct (check_tags self ds m case_name) as [b|e] eqn:E.
    + assert (Hms : modality ∈ ms).
      { apply elem_of_cons in Hin as [->|Hin]; [|done].
        pose proof (check_tags_falsy self ds m case_name key tags Ht Hk Hf) as H.
        by rewrite E in H. }
      destruct b; apply IH; try done; intros; apply Hsub; by right.
    + destruct (check_tags_raises_only_ValueError self ds m case_name e)
        as [msg ->]; [apply Hsub; left | done |]. by exists msg.
Qed.

(** ** Classifier: one directory *)

Lemma scan_files_cons (fs : filesystem) (self : DicomParser) (root file : string)
    (rest : list string) (s : state) :
  scan_files fs self root (file :: rest) s =
  let file_path := os_path_join root file in
  match check_file fs self file_path with
  | Ok c =>
      if bool_decide (c <> 0)
      then meta_data_search fs self file_path (log_events s [CheckFile file_path])
      else scan_files fs self root rest (log_events s [CheckFile file_path])
  | Raise e => (log_events s [CheckFile file_path], Raise e)
  end.
Proof.
  cbn [scan_files]. unfold bind, emit, lift, log_events. cbv zeta.
  destruct (check_file fs self (os_path_join root file)) as [c|e];
    [destruct (bool_decide (c <> 0))|]; reflexivity.
Qed.

Lemma passes_Ok (fs : filesystem) (self : DicomParser) (file_path : string) (c : Z) :
  check_file fs self file_path = Ok c -> passes fs self file_path <-> c <> 0.
Proof.
  intros H. unfold passes. rewrite H. split.
  - by intros [c' [[= <-] ?]].
  - intros Hc. by exists c.
Qed.

Lemma scan_files_candidate (fs : filesystem) (self : DicomParser) (root : string)
    (pre : list string) (f : string) (post : list string) (s : state) :
  (forall g, g ∈ pre -> check_file fs self (os_path_join root g) = Ok 0) ->
  passes fs self (os_path_join root f) ->
  scan_files fs self root (pre ++ f :: post) s =
  meta_data_search fs self (os_path_join root f)
    (log_events s (checks root (pre ++ [f]))).
Proof.
  intros Hpre [c [Hc Hne]]. revert s.
  induction pre as [|g pre IH]; intros s; simpl app.
  - rewrite scan_files_cons. cbv zeta. rewrite Hc.
    by rewrite bool_decide_eq_true_2.
  - rewrite scan_files_cons. cbv zeta. rewrite (Hpre g) by left.
    rewrite bool_decide_eq_false_2 by (intros H; by apply H).
    rewrite IH by (intros; apply Hpre; by right).
    by rewrite log_events_app.
Qed.

Lemma first_candidate_spec (fs : filesystem) (self : DicomParser) (root : string)
    (files : list string) (p : string) :
  first_candidate fs self root files = Some p <->
  exists pre f post,
    files = pre ++ f :: post /\ p = os_path_join root f /\
    passes fs self p /\
    forall g, g ∈ pre -> check_file fs self (os_path_join root g) = Ok 0.
Proof.
  induction files as [|file files IH]; simpl.
  - split; [done|]. intros (pre & f & post & H & _). by destruct pre.
  - destruct (check_file fs self (os_path_join root file)) as [c|e] eqn:E.
    + case_bool_decide as Hc.
      * split.
        -- intros [= <-]. exists [], file, files. repeat split; try done.
           ++ by apply (passes_Ok _ _ _ c).
           ++ intros g H. by apply elem_of_nil in H.
        -- intros (pre & f & post & H & -> & Hp & Hpre).
           destruct pre as [|g pre]; simpl in H.
           ++ by injection H as <- _.
           ++ injection H as <- _. rewrite (Hpre file) in E by left.
              by injection E as <-.
      * assert (c = 0) as -> by lia. rewrite IH. split.
        -- intros (pre & f & post & -> & -> & Hp & Hpre).
           exists (file :: pre), f, post. repeat split; try done.
           intros g Hg. apply elem_of_cons in Hg as [->|Hg]; auto.
        -- intros (pre & f & post & H & -> & Hp & Hpre).
           destruct pre as [|g pre]; simpl in H.
           ++ injection H as <- _. apply (passes_Ok _ _ _ 0) in Hp; done.
           ++ injection H as <- ->. exists pre, f, post. repeat split; try done.
              intros; apply Hpre; by right.
    + split; [done|]. intros (pre & f & post & H & -> & Hp & Hpre).
      destruct pre as [|g pre]; simpl in H.
      * injection H as <- _. destruct Hp as [c [Hp _]]. congruence.
      * injection H as <- _. rewrite (Hpre file) in E by left. done.
Qed.

(** C6: in every directory the files are passed to the candidate filter in
    listing order; the data set of at most one file is read, the first
    file that passes the filter, and no file after it is looked at. *)
Theorem scan_files_reads_first_candidate (fs : filesystem) (self : DicomParser)
    (root : string) (files : list string) (s : state) :
  exists checked rest reads,
    files = checked ++ rest /\
    trace (scan_files fs self root files s).1
    = trace s ++ checks root checked ++ reads /\
    ((reads = [] /\
      first_candidate fs self root files = None /\
      forall g, g ∈ checked -> ~ passes fs self (os_path_join root g)) \/
     (exists pre f,
        checked = pre ++ [f] /\
        reads = [DcmRead (os_path_join root f)] /\
        first_candidate fs self root files = Some (os_path_join root f) /\
        passes fs self (os_path_join root f) /\
        (forall g, g ∈ pre -> check_file fs self (os_path_join root g) = Ok 0) /\
        scan_files fs self root files s
        = meta_data_search fs self (os_path_join root f)
            (log_events s (checks root checked)))).
Proof.
  revert s. induction files as [|file files IH]; intros s.
  - exists [], [], []. split; [done|]. split; [simpl; by rewrite app_nil_r|].
    left. split; [done|]. split; [done|]. intros g H. by apply elem_of_nil in H.
  - rewrite scan_files_cons. cbv zeta. cbn [first_candidate].
    destruct (check_file fs self (os_path_join root file)) as [c|e] eqn:E.
    + case_bool_decide as Hc.
      * exists [file], files, [DcmRead (os_path_join root file)].
        split; [done|]. split.
        { rewrite meta_data_search_trace. simpl. by rewrite <- app_assoc. }
        right. exists [], file. repeat split; try done.
        -- by apply (passes_Ok _ _ _ c).
        -- intros g H. by apply elem_of_nil in H.
      * assert (c = 0) as -> by lia.
        destruct (IH (log_events s [CheckFile (os_path_join root file)]))
          as (checked & rest & reads & Hf & Ht & Hcases).
        exists (file :: checked), rest, reads.
        split; [by rewrite Hf|]. split.
        { rewrite Ht. simpl. by rewrite <- app_assoc. }
        destruct Hcases as [(Hr & Hn & Hno) | (pre & f & Hch & Hr & Hfc & Hp & Hpre & Hrun)].
        -- left. repeat split; try done. intros g Hg.
           apply elem_of_cons in Hg as [->|Hg]; [|by apply Hno].
           intros Hp. by apply (passes_Ok _ _ _ 0) in Hp.
        -- right. exists (file :: pre), f. repeat split; try done.
           ++ by rewrite Hch.
           ++ intros g Hg. apply elem_of_cons in Hg as [->|Hg]; auto.
           ++ rewrite Hrun, log_events_app. done.
    + exists [file], files, []. split; [done|]. split; [done|].
      left. repeat split; try done. intros g Hg.
      apply list_elem_of_singleton in Hg as ->. intros [c [Hp _]]. congruence.
Qed.

Example scan_files_series_example :
  trace (scan_files series_fs series_parser "/data/a"
           ["notes.txt"; "1.dcm"; "2.dcm"] init).1
  = [CheckFile "/data/a/notes.txt"; CheckFile "/data/a/1.dcm";
     DcmRead "/data/a/1.dcm"].
Proof. vm_compute. reflexivity. Qed.

(** ** Classifier: the walk *)

Lemma scan_dirs_cons (fs : filesystem) (self : DicomParser)
    (root : string) (dirs files : list string)
    (rest : list (string * list string * list string)) (s : state) :
  scan_dirs fs self ((root, dirs, files) :: rest) s =
  match scan_files fs self root files s with
  | (s1, Ok _) => scan_dirs fs self rest s1
  | (s1, Raise e) => (s1, Raise e)
  end.
Proof. reflexivity. Qed.

Lemma scan_dirs_app (fs : filesystem) (self : DicomParser)
    (w1 w2 : list (string * list string * list string)) (s : state) :
  scan_dirs fs self (w1 ++ w2) s =
  match scan_dirs fs self w1 s with
  | (s1, Ok _) => scan_dirs fs self w2 s1
  | (s1, Raise e) => (s1, Raise e)
  end.
Proof.
  revert s. induction w1 as [|[[root dirs] files] w1 IH]; intros s; [done|].
  simpl app. rewrite !scan_dirs_cons.
  destruct (scan_files fs self root files s) as [s1 [[]|e]]; [apply IH | done].
Qed.

Lemma scan_folder_unfold (fs : filesystem) (self : DicomParser) (s : state) :
  scan_folder fs self s =
  match scan_dirs fs self (os_walk fs (src self)) s with
  | (s1, Ok _) => (log_events s1 [LogInfo (path_memory s1)], Ok tt)
  | (s1, Raise e) => (s1, Raise e)
  end.
Proof.
  unfold scan_folder, bind.
  destruct (scan_dirs fs self (os_walk fs (src self)) s) as [s1 [[]|e]]; reflexivity.
Qed.

(** C2: when the file chosen in a directory lacks a key required by some
    category, [check_tags] raises a ValueError for that category, and the
    error leaves [meta_data_search] and [scan_folder]: the run ends with
    this error, and its last action is the read of that file: no file
    after it and no later directory is looked at. *)
Theorem missing_key_aborts_run (fs : filesystem) (self : DicomParser)
    (s s1 : state) (wpre wrest : list (string * list string * list string))
    (root : string) (dirs pre : list string) (f : string) (post : list string)
    (ds : dataset) (modality key : string) (tags : rules) :
  os_walk fs (src self) = wpre ++ (root, dirs, pre ++ f :: post) :: wrest ->
  scan_dirs fs self wpre s = (s1, Ok tt) ->
  (forall g, g ∈ pre -> check_file fs self (os_path_join root g) = Ok 0) ->
  passes fs self (os_path_join root f) ->
  dcmread fs (os_path_join root f) = Some ds ->
  dict_get (search_tags self) modality = Some tags ->
  key ∈ dict_keys tags ->
  ds !! key = None ->
  is_ValueError (check_tags self ds modality (patient_name ds)) /\
  exists s2 msg,
    meta_data_search fs self (os_path_join root f)
      (log_events s1 (checks root (pre ++ [f])))
    = (s2, Raise (ValueError msg)) /\
    scan_folder fs self s = (s2, Raise (ValueError msg)) /\
    trace s2
    = trace s1 ++ checks root (pre ++ [f]) ++ [DcmRead (os_path_join root f)].
Proof.
  intros Hw Hpre_run Hpre Hp Hds Ht Hk Hnone.
  assert (Hf : falsy ds key = true) by (unfold falsy; by rewrite Hnone).
  split; [by apply (check_tags_falsy self ds modality _ key tags)|].
  set (p := os_path_join root f) in *.
  set (s1' := log_events s1 (checks root (pre ++ [f]))).
  destruct (search_modalities_falsy self (dict_keys (search_tags self)) ds
              (patient_name ds) p modality key tags
              (log_events s1' [DcmRead p]) (fun _ H => H)
              (dict_get_Some_key _ _ _ Ht) Ht Hk Hf) as [msg Hmsg].
  assert (Hm : meta_data_search fs self p s1'
               = ((meta_data_search fs self p s1').1, Raise (ValueError msg))).
  { rewrite meta_data_search_unfold, Hds.
    rewrite <- Hmsg. by destruct (search_modalities _ _ _ _ _ _). }
  exists (meta_data_search fs self p s1').1, msg.
  split; [exact Hm|]. split.
  - rewrite scan_folder_unfold, Hw, scan_dirs_app, Hpre_run, scan_dirs_cons.
    rewrite scan_files_candidate by done. fold p s1'. by rewrite Hm.
  - rewrite meta_data_search_trace. unfold s1'. simpl. by rewrite <- app_assoc.
Qed.

Lemma missing_key_aborts_run_witness :
  is_ValueError (check_tags series_parser ds_no_kind "seriesA" "case1") /\
  exists s2 msg,
    meta_data_search broken_fs series_parser "/data/b/1.dcm"
      (log_events (scan_dirs broken_fs series_parser
                     [("/data", ["a"; "b"; "c"], ["DICOMDIR"]);
                      ("/data/a", [], ["notes.txt"; "1.dcm"; "2.dcm"])] init).1
         [CheckFile "/data/b/1.dcm"])
    = (s2, Raise (ValueError msg)) /\
    scan_folder broken_fs series_parser init = (s2, Raise (ValueError msg)) /\
    trace s2
    = [CheckFile "/data/DICOMDIR"; CheckFile "/data/a/notes.txt";
       CheckFile "/data/a/1.dcm"; DcmRead "/data/a/1.dcm";
       CheckFile "/data/b/1.dcm"; DcmRead "/data/b/1.dcm"].
Proof.
  apply (missing_key_aborts_run broken_fs series_parser init
           (scan_dirs broken_fs series_parser
              [("/data", ["a"; "b"; "c"], ["DICOMDIR"]);
               ("/data/a", [], ["notes.txt"; "1.dcm"; "2.dcm"])] init).1
           [("/data", ["a"; "b"; "c"], ["DICOMDIR"]);
            ("/data/a", [], ["notes.txt"; "1.dcm"; "2.dcm"])]
           [("/data/c", [], ["1.dcm"])]
           "/data/b" [] [] "1.dcm" ["2.dcm"] ds_no_kind "seriesA" "Kind"
           [("Description", [["FOO"]]); ("Kind", [["X"]])]).
  - reflexivity.
  - vm_compute. reflexivity.
  - intros g Hg. by apply elem_of_nil in Hg.
  - exists 1. split; [vm_compute; reflexivity | lia].
  - reflexivity.
  - reflexivity.
  - simpl. right. left.
  - reflexivity.
Defined.

(** ** The path memory: last writer wins *)

Lemma lookup2_memory_set (memory : NestedDefaultDict)
    (c m p c' m' : string) :
  lookup2 (memory_set memory c m p) c' m' =
  if decide (c = c' /\ m = m') then Some p else lookup2 memory c' m'.
Proof.
  unfold lookup2, memory_set. rewrite dict_get_set.
  destruct (decide (c = c')) as [<-|Hc].
  - rewrite dict_get_set.
    destruct (decide (m = m')) as [<-|Hm].
    + by rewrite decide_True.
    + rewrite decide_False by (by intros [_ ?]).
      by destruct (dict_get memory c).
  - by rewrite decide_False by (by intros [? _]).
Qed.

Lemma tag_match_key (self : DicomParser) (ds : dataset) (m case_name : string) :
  tag_match self ds m case_name = true -> m ∈ dict_keys (search_tags self).
Proof.
  unfold tag_match, check_tags.
  destruct (dict_get (search_tags self) m) as [tags|] eqn:E; [|done].
  intros _. by apply dict_get_Some_key in E.
Qed.

Lemma bool_decide_other_modality (c case_name m m0 : string) (ms : list string) :
  ~ (case_name = c /\ m0 = m) ->
  bool_decide (c = case_name /\ m ∈ m0 :: ms)
  = bool_decide (c = case_name /\ m ∈ ms).
Proof.
  intros Hne. apply bool_decide_ext. rewrite elem_of_cons. split.
  - intros [Hc [Hm|Hm]]; [|by split].
    exfalso. apply Hne. split; congruence.
  - intros [Hc Hm]. split; [done | by right].
Qed.

Lemma search_modalities_lookup (self : DicomParser) (modalities : list string)
    (ds : dataset) (case_name file_path : string) (s s' : state) (c m : string) :
  search_modalities self modalities ds case_name file_path s = (s', Ok tt) ->
  lookup2 (path_memory s') c m =
  if bool_decide (c = case_name /\ m ∈ modalities) && tag_match self ds m case_name
  then Some file_path
  else lookup2 (path_memory s) c m.
Proof.
  revert s. induction modalities as [|m0 ms IH]; intros s.
  - intros [= <-]. rewrite bool_decide_eq_false_2; [done|].
    intros [_ H]. by apply elem_of_nil in H.
  - rewrite search_modalities_cons.
    destruct (check_tags self ds m0 case_name) as [[|]|e] eqn:E; [| |done].
    + intros H. rewrite (IH _ H). cbn [path_memory].
      rewrite lookup2_memory_set.
      destruct (decide (case_name = c /\ m0 = m)) as [[<- <-]|Hne].
      * assert (tag_match self ds m0 case_name = true) as ->
          by (unfold tag_match; by rewrite E).
        rewrite (bool_decide_eq_true_2 (case_name = case_name /\ m0 ∈ m0 :: ms))
          by (split; [done | left]).
        simpl. by destruct (bool_decide _).
      * by rewrite (bool_decide_other_modality c case_name m m0 ms Hne).
    + intros H. rewrite (IH _ H).
      destruct (decide (m = m0)) as [->|Hne].
      * assert (tag_match self ds m0 case_name = false) as ->
          by (unfold tag_match; by rewrite E).
        by rewrite !andb_false_r.
      * rewrite (bool_decide_other_modality c case_name m m0 ms); [done|].
        intros [_ ?]. congruence.
Qed.

Lemma meta_data_search_lookup (fs : filesystem) (self : DicomParser)
    (file_path : string) (s s' : state) (c m : string) :
  meta_data_search fs self file_path s = (s', Ok tt) ->
  lookup2 (path_memory s') c m =
  if matchesb fs self file_path c m then Some file_path
  else lookup2 (path_memory s) c m.
Proof.
  rewrite meta_data_search_unfold. unfold matchesb.
  destruct (dcmread fs file_path) as [ds|]; [|done].
  intros H. rewrite (search_modalities_lookup _ _ _ _ _ _ _ c m H).
  cbn [log_events path_memory].
  destruct (decide (c = patient_name ds)) as [->|Hne].
  - rewrite (bool_decide_eq_true_2 (patient_name ds = patient_name ds)) by done.
    destruct (tag_match self ds m (patient_name ds)) eqn:E.
    + rewrite bool_decide_eq_true_2; [done|].
      split; [done|]. by apply tag_match_key in E.
    + by rewrite !andb_false_r.
  - rewrite !bool_decide_eq_false_2; [done | congruence | by intros [? _]].
Qed.

Lemma scan_files_lookup (fs : filesystem) (self : DicomParser) (root : string)
    (files : list string) (s s' : state) (c m : string) :
  scan_files fs self root files s = (s', Ok tt) ->
  lookup2 (path_memory s') c m =
  match first_candidate fs self root files with
  | Some p => if matchesb fs self p c m then Some p else lookup2 (path_memory s) c m
  | None => lookup2 (path_memory s) c m
  end.
Proof.
  revert s. induction files as [|file files IH]; intros s.
  - by intros [= <-].
  - rewrite scan_files_cons. cbv zeta. cbn [first_candidate].
    destruct (check_file fs self (os_path_join root file)) as [z|e]; [|done].
    case_bool_decide as Hz.
    + intros H. by rewrite (meta_data_search_lookup _ _ _ _ _ c m H).
    + intros H. by rewrite (IH _ H).
Qed.

Lemma scan_dirs_cons_Ok (fs : filesystem) (self : DicomParser)
    (root : string) (dirs files : list string)
    (rest : list (string * list string * list string)) (s s' : state) :
  scan_dirs fs self ((root, dirs, files) :: rest) s = (s', Ok tt) ->
  exists s1, scan_files fs self root files s = (s1, Ok tt) /\
             scan_dirs fs self rest s1 = (s', Ok tt).
Proof.
  rewrite scan_dirs_cons.
  destruct (scan_files fs self root files s) as [s1 [[]|e]]; [|done].
  intros H. by exists s1.
Qed.

Lemma scan_dirs_app_Ok (fs : filesystem) (self : DicomParser)
    (w1 w2 : list (string * list string * list string)) (s s' : state) :
  scan_dirs fs self (w1 ++ w2) s = (s', Ok tt) ->
  exists s1, scan_dirs fs self w1 s = (s1, Ok tt) /\
             scan_dirs fs self w2 s1 = (s', Ok tt).
Proof.
  rewrite scan_dirs_app.
  destruct (scan_dirs fs self w1 s) as [s1 [[]|e]]; [|done].
  intros H. by exists s1.
Qed.

Lemma scan_dirs_lookup_unchanged (fs : filesystem) (self : DicomParser)
    (w : list (string * list string * list string)) (s s' : state) (c m : string) :
  scan_dirs fs self w s = (s', Ok tt) ->
  (forall root dirs files p,
     (root, dirs, files) ∈ w ->
     first_candidate fs self root files = Some p ->
     matchesb fs self p c m = false) ->
  lookup2 (path_memory s') c m = lookup2 (path_memory s) c m.
Proof.
  revert s. induction w as [|[[root dirs] files] w IH]; intros s.
  - by intros [= <-].
  - intros H Hno. apply scan_dirs_cons_Ok in H as (s1 & H1 & H2).
    rewrite (IH _ H2) by (intros; eapply Hno; [by right | done]).
    rewrite (scan_files_lookup _ _ _ _ _ _ c m H1).
    destruct (first_candidate fs self root files) as [p|] eqn:E; [|done].
    by rewrite (Hno root dirs files p) by (done || left).
Qed.

(** For a scan that ends normally: when the files read in two directories
    of the walk both match a category and derive the same case identity, the
    location of the earlier one is stored after its directory and the final
    path memory holds the location of the later one. *)
Lemma later_match_lookup (fs : filesystem) (self : DicomParser)
    (s s' : state) (w1 w2 w3 : list (string * list string * list string))
    (root1 : string) (dirs1 files1 : list string)
    (root2 : string) (dirs2 files2 : list string) (p1 p2 c m : string) :
  os_walk fs (src self)
  = w1 ++ (root1, dirs1, files1) :: w2 ++ (root2, dirs2, files2) :: w3 ->
  scan_folder fs self s = (s', Ok tt) ->
  first_candidate fs self root1 files1 = Some p1 ->
  first_candidate fs self root2 files2 = Some p2 ->
  matchesb fs self p1 c m = true ->
  matchesb fs self p2 c m = true ->
  (forall root dirs files p,
     (root, dirs, files) ∈ w3 ->
     first_candidate fs self root files = Some p ->
     matchesb fs self p c m = false) ->
  (exists s1,
     scan_dirs fs self (w1 ++ [(root1, dirs1, files1)]) s = (s1, Ok tt) /\
     lookup2 (path_memory s1) c m = Some p1) /\
  lookup2 (path_memory s') c m = Some p2.
Proof.
  intros Hw Hrun Hc1 Hc2 Hm1 Hm2 Hno.
  rewrite scan_folder_unfold, Hw in Hrun.
  destruct (scan_dirs fs self _ s) as [s0 [[]|e]] eqn:E; [|done].
  injection Hrun as <-. cbn [log_events path_memory].
  apply scan_dirs_app_Ok in E as (sa & Ha & E).
  apply scan_dirs_cons_Ok in E as (sb & Hb & E).
  apply scan_dirs_app_Ok in E as (sc & Hc & E).
  apply scan_dirs_cons_Ok in E as (sd & Hd & E).
  split.
  - exists sb. split.
    + rewrite scan_dirs_app, Ha, scan_dirs_cons, Hb. done.
    + by rewrite (scan_files_lookup _ _ _ _ _ _ c m Hb), Hc1, Hm1.
  - rewrite (scan_dirs_lookup_unchanged _ _ _ _ _ c m E Hno).
    by rewrite (scan_files_lookup _ _ _ _ _ _ c m Hd), Hc2, Hm2.
Qed.

(** ** The path memory: running twice *)

Lemma memory_set_set (memory : NestedDefaultDict) (c m p p' : string) :
  memory_set (memory_set memory c m p) c m p' = memory_set memory c m p'.
Proof.
  unfold memory_set. rewrite dict_get_set, decide_True by done. simpl.
  by rewrite !dict_set_set.
Qed.

Lemma lookup2_Some_keys (memory : NestedDefaultDict) (c m : string) :
  lookup2 memory c m <> None ->
  exists inner, dict_get memory c = Some inner /\ m ∈ dict_keys inner.
Proof.
  unfold lookup2. destruct (dict_get memory c) as [inner|]; [|done].
  intros H. exists inner. split; [done|].
  destruct (dict_get inner m) as [p|] eqn:E; [|done].
  by apply dict_get_Some_key in E.
Qed.

Lemma memory_set_comm (memory : NestedDefaultDict) (c m p c' m' p' : string) :
  (c, m) <> (c', m') -> lookup2 memory c m <> None ->
  memory_set (memory_set memory c m p) c' m' p'
  = memory_set (memory_set memory c' m' p') c m p.
Proof.
  intros Hne Hin. apply lookup2_Some_keys in Hin as (inner & Hc & Hm).
  unfold memory_set. rewrite !dict_get_set.
  destruct (decide (c = c')) as [<-|Hcc].
  - rewrite !decide_True by done. rewrite !Hc. simpl. rewrite !dict_set_set.
    f_equal. apply dict_set_comm; [congruence | done].
  - rewrite !decide_False by done.
    apply dict_set_comm; [done|]. by apply dict_get_Some_key in Hc.
Qed.

Lemma memory_set_id (memory : NestedDefaultDict) (c m p : string) :
  lookup2 memory c m = Some p -> memory_set memory c m p = memory.
Proof.
  unfold lookup2, memory_set.
  destruct (dict_get memory c) as [inner|] eqn:Hc; [|done].
  intros Hm. simpl. rewrite (dict_set_id inner m p Hm). by apply dict_set_id.
Qed.

Lemma last_write_elem (ws : list write) (w : write) :
  w ∈ ws -> exists p, last_write ws (write_key w) = Some p.
Proof.
  induction ws as [|w0 ws IH]; intros H.
  - by apply elem_of_nil in H.
  - simpl. destruct (last_write ws (write_key w)) as [p|] eqn:E; [by exists p|].
    apply elem_of_cons in H as [->|H].
    + rewrite decide_True by done. by eexists.
    + destruct (IH H) as [p Hp]. congruence.
Qed.

Lemma lookup2_apply_writes (ws : list write) (memory : NestedDefaultDict)
    (c m : string) :
  lookup2 (apply_writes ws memory) c m =
  match last_write ws (c, m) with
  | Some p => Some p
  | None => lookup2 memory c m
  end.
Proof.
  revert memory. induction ws as [|[[c0 m0] p0] ws IH]; intros memory; [done|].
  unfold apply_writes in *. simpl. rewrite IH.
  destruct (last_write ws (c, m)); [done|].
  unfold apply_write, write_key. simpl. rewrite lookup2_memory_set.
  destruct (decide (c0 = c /\ m0 = m)) as [[-> ->]|Hne].
  - by rewrite decide_True.
  - rewrite decide_False; [done|]. intros [= -> ->]. by apply Hne.
Qed.

(** A write that is followed by a write to the same pair, which the memory
    already holds, has no effect on the result. *)
Lemma apply_writes_absorb (ws : list write) (w : write)
    (memory : NestedDefaultDict) :
  last_write ws (write_key w) <> None ->
  lookup2 memory w.1.1 w.1.2 <> None ->
  apply_writes ws (apply_write memory w) = apply_writes ws memory.
Proof.
  revert memory. induction ws as [|w1 ws IH]; intros memory Hlast Hin; [done|].
  unfold apply_writes in *. simpl.
  destruct w as [[c m] p], w1 as [[c1 m1] p1]. unfold apply_write at 2 3. simpl in *.
  destruct (decide ((c1, m1) = (c, m))) as [[= -> ->]|Hne].
  - by rewrite memory_set_set.
  - rewrite memory_set_comm by (done || congruence).
    apply (IH (memory_set memory c1 m1 p1)).
    + by destruct (last_write ws (c, m)).
    + simpl. rewrite lookup2_memory_set.
      rewrite decide_False; [done|]. intros [-> ->]. by apply Hne.
Qed.

Lemma apply_writes_fixed (ws : list write) (memory : NestedDefaultDict) :
  (forall w, w ∈ ws -> lookup2 memory w.1.1 w.1.2 = last_write ws (write_key w)) ->
  apply_writes ws memory = memory.
Proof.
  induction ws as [|w ws IH]; intros H; [done|].
  assert (Hrest : apply_writes ws memory = memory).
  { apply IH. intros w' Hw'. rewrite (H w') by (by right). simpl.
    destruct (last_write_elem ws w' Hw') as [p ->]. done. }
  change (apply_writes ws (apply_write memory w) = memory).
  pose proof (H w ltac:(left)) as Hw. simpl in Hw.
  destruct (last_write ws (write_key w)) as [p|] eqn:E.
  - rewrite apply_writes_absorb; [done | by rewrite E | by rewrite Hw].
  - rewrite decide_True in Hw by done.
    unfold apply_write. by rewrite (memory_set_id _ _ _ _ Hw).
Qed.

Lemma apply_writes_idempotent (ws : list write) (memory : NestedDefaultDict) :
  apply_writes ws (apply_writes ws memory) = apply_writes ws memory.
Proof.
  apply apply_writes_fixed. intros w Hw.
  rewrite lookup2_apply_writes.
  destruct (last_write_elem ws w Hw) as [p Hp].
  destruct w as [[c m] p0]. unfold write_key in *. simpl in *. by rewrite Hp.
Qed.

Lemma apply_writes_app (ws ws' : list write) (memory : NestedDefaultDict) :
  apply_writes (ws ++ ws') memory = apply_writes ws' (apply_writes ws memory).
Proof. unfold apply_writes. apply fold_left_app. Qed.

Lemma oblivious_ret {A : Type} (a : A) : oblivious (ret a).
Proof. exists [], (Ok a). by intros s. Qed.

Lemma oblivious_lift {A : Type} (r : outcome A) : oblivious (lift r).
Proof. exists [], r. by intros s. Qed.

Lemma oblivious_raise {A : Type} (e : exn) : oblivious (@raise A e).
Proof. exists [], (Raise e). by intros s. Qed.

Lemma oblivious_emit (e : event) : oblivious (emit e).
Proof. exists [], (Ok tt). by intros s. Qed.

Lemma oblivious_set_path (c m p : string) : oblivious (set_path c m p).
Proof. exists [(c, m, p)], (Ok tt). by intros s. Qed.

Lemma oblivious_bind {A B : Type} (m : M A) (k : A -> M B) :
  oblivious m -> (forall a, oblivious (k a)) -> oblivious (bind m k).
Proof.
  intros (ws & r & Hm) Hk. destruct r as [a|e].
  - destruct (Hk a) as (ws' & r' & Hka). exists (ws ++ ws'), r'. intros s.
    destruct (Hm s) as [H1 H2]. unfold bind.
    destruct (m s) as [s1 r1]. simpl in *. subst r1.
    destruct (Hka s1) as [H3 H4]. by rewrite apply_writes_app, <- H1.
  - exists ws, (Raise e). intros s.
    destruct (Hm s) as [H1 H2]. unfold bind.
    destruct (m s) as [s1 r1]. simpl in *. by subst r1.
Qed.

Lemma oblivious_search_modalities (self : DicomParser) (modalities : list string)
    (ds : dataset) (case_name file_path : string) :
  oblivious (search_modalities self modalities ds case_name file_path).
Proof.
  induction modalities as [|m ms IH]; cbn [search_modalities].
  - apply oblivious_ret.
  - apply oblivious_bind; [apply oblivious_lift|]. intros found.
    apply oblivious_bind; [|done].
    destruct found; [apply oblivious_set_path | apply oblivious_ret].
Qed.

Lemma oblivious_meta_data_search (fs : filesystem) (self : DicomParser)
    (file_path : string) :
  oblivious (meta_data_search fs self file_path).
Proof.
  unfold meta_data_search. apply oblivious_bind; [apply oblivious_emit|].
  intros _. destruct (dcmread fs file_path).
  - apply oblivious_search_modalities.
  - apply oblivious_raise.
Qed.

Lemma oblivious_scan_files (fs : filesystem) (self : DicomParser)
    (root : string) (files : list string) :
  oblivious (scan_files fs self root files).
Proof.
  induction files as [|file files IH]; cbn [scan_files].
  - apply oblivious_ret.
  - cbv zeta. apply oblivious_bind; [apply oblivious_emit|]. intros _.
    apply oblivious_bind; [apply oblivious_lift|]. intros c.
    destruct (bool_decide (c <> 0)); [apply oblivious_meta_data_search | done].
Qed.

Lemma oblivious_scan_dirs (fs : filesystem) (self : DicomParser)
    (w : list (string * list string * list string)) :
  oblivious (scan_dirs fs self w).
Proof.
  induction w as [|[[root dirs] files] w IH]; cbn [scan_dirs].
  - apply oblivious_ret.
  - apply oblivious_bind; [apply oblivious_scan_files | done].
Qed.

Lemma oblivious_scan_folder (fs : filesystem) (self : DicomParser) :
  oblivious (scan_folder fs self).
Proof.
  unfold scan_folder. apply oblivious_bind; [apply oblivious_scan_dirs|].
  intros _. exists [], (Ok tt). by intros s.
Qed.

(** C8: a second classification pass over the same tree with the same
    configuration leaves the path memory of the first pass as it is, and
    ends as the first pass did; and two passes that start from the same
    path memory end with the same path memory and the same outcome. *)
Theorem scan_folder_idempotent (fs : filesystem) (self : DicomParser) (s : state) :
  (path_memory (scan_folder fs self (scan_folder fs self s).1).1
   = path_memory (scan_folder fs self s).1 /\
   (scan_folder fs self (scan_folder fs self s).1).2 = (scan_folder fs self s).2) /\
  forall s', path_memory s' = path_memory s ->
    path_memory (scan_folder fs self s').1 = path_memory (scan_folder fs self s).1 /\
    (scan_folder fs self s').2 = (scan_folder fs self s).2.
Proof.
  destruct (oblivious_scan_folder fs self) as (ws & r & H).
  destruct (H s) as [H1 H2]. split.
  - destruct (H (scan_folder fs self s).1) as [H3 H4].
    split; [|congruence].
    rewrite H3, H1. apply apply_writes_idempotent.
  - intros s' Hs'. destruct (H s') as [H3 H4].
    split; congruence.
Qed.

Lemma scan_folder_idempotent_witness :
  path_memory (scan_folder series_fs series_parser
                 (log_events init [DcmRead "/data/a/1.dcm"])).1
  = path_memory (scan_folder series_fs series_parser init).1 /\
  (scan_folder series_fs series_parser
     (log_events init [DcmRead "/data/a/1.dcm"])).2
  = (scan_folder series_fs series_parser init).2.
Proof.
  apply (proj2 (scan_folder_idempotent series_fs series_parser init)).
  reflexivity.
Defined.

Example scan_folder_twice :
  path_memory (scan_folder series_fs series_parser
                 (scan_folder series_fs series_parser init).1).1
  = [("case1", [("seriesA", "/data/b/1.dcm")])].
Proof. vm_compute. reflexivity. Qed.

(** ** The path memory: what is stored *)

Lemma memory_inv_init (fs : filesystem) (self : DicomParser) :
  memory_inv fs self (path_memory init).
Proof. intros c inner m p H. by apply elem_of_nil in H. Qed.

Lemma memory_set_inv (fs : filesystem) (self : DicomParser)
    (memory : NestedDefaultDict) (c m p : string) :
  memory_inv fs self memory ->
  m ∈ dict_keys (search_tags self) -> passes fs self p ->
  memory_inv fs self (memory_set memory c m p).
Proof.
  intros Hinv Hm Hp c' inner' m' p' Hin Hin'. unfold memory_set in Hin.
  apply dict_set_elem in Hin as [Hin | [= -> ->]].
  - by apply (Hinv c' inner' m' p').
  - apply dict_set_elem in Hin' as [Hin' | [= -> ->]]; [|done].
    destruct (dict_get memory c) as [inner|] eqn:E; simpl in Hin'.
    + apply dict_get_Some_elem in E. by apply (Hinv c inner m' p').
    + by apply elem_of_nil in Hin'.
Qed.

Lemma search_modalities_inv (fs : filesystem) (self : DicomParser)
    (modalities : list string) (ds : dataset) (case_name file_path : string)
    (s : state) :
  (forall m, m ∈ modalities -> m ∈ dict_keys (search_tags self)) ->
  passes fs self file_path ->
  memory_inv fs self (path_memory s) ->
  memory_inv fs self
    (path_memory (search_modalities self modalities ds case_name file_path s).1).
Proof.
  intros Hsub Hp. revert s.
  induction modalities as [|m ms IH]; intros s Hinv; [done|].
  assert (Hms : forall m', m' ∈ ms -> m' ∈ dict_keys (search_tags self))
    by (intros; apply Hsub; by right).
  rewrite search_modalities_cons.
  destruct (check_tags self ds m case_name) as [[|]|e]; [| by apply IH | done].
  apply IH; [done|]. simpl. apply memory_set_inv; [done | | done].
  apply Hsub. left.
Qed.

Lemma meta_data_search_inv (fs : filesystem) (self : DicomParser)
    (file_path : string) (s : state) :
  passes fs self file_path ->
  memory_inv fs self (path_memory s) ->
  memory_inv fs self (path_memory (meta_data_search fs self file_path s).1).
Proof.
  intros Hp Hinv. rewrite meta_data_search_unfold.
  destruct (dcmread fs file_path) as [ds|]; [|done].
  by apply (search_modalities_inv fs).
Qed.

Lemma scan_files_inv (fs : filesystem) (self : DicomParser) (root : string)
    (files : list string) (s : state) :
  memory_inv fs self (path_memory s) ->
  memory_inv fs self (path_memory (scan_files fs self root files s).1).
Proof.
  revert s. induction files as [|file files IH]; intros s Hinv; [done|].
  rewrite scan_files_cons. cbv zeta.
  destruct (check_file fs self (os_path_join root file)) as [c|e] eqn:E; [|done].
  case_bool_decide as Hc.
  - apply meta_data_search_inv; [|done]. by exists c.
  - by apply IH.
Qed.

Lemma scan_dirs_inv (fs : filesystem) (self : DicomParser)
    (w : list (string * list string * list string)) (s : state) :
  memory_inv fs self (path_memory s) ->
  memory_inv fs self (path_memory (scan_dirs fs self w s).1).
Proof.
  revert s. induction w as [|[[root dirs] files] w IH]; intros s Hinv; [done|].
  rewrite scan_dirs_cons.
  pose proof (scan_files_inv fs self root files s Hinv) as H.
  destruct (scan_files fs self root files s) as [s1 [[]|e]]; [by apply IH | done].
Qed.

Lemma scan_folder_inv (fs : filesystem) (self : DicomParser) (s : state) :
  memory_inv fs self (path_memory s) ->
  memory_inv fs self (path_memory (scan_folder fs self s).1).
Proof.
  intros Hinv. rewrite scan_folder_unfold.
  pose proof (scan_dirs_inv fs self (os_walk fs (src self)) s Hinv) as H.
  by destruct (scan_dirs fs self (os_walk fs (src self)) s) as [s1 [[]|e]].
Qed.

(** C10: the path memory of a new parser is empty, and every step of a
    classification run (the loop over the categories for a file that passed
    the candidate filter, the loop over the files of a directory, the loop
    over the directories, the whole run), ending normally or by an error,
    keeps this true: every stored category is a configured category and
    every stored location is that of a file that passed the filter. *)
Theorem path_memory_invariant (fs : filesystem) (self : DicomParser) :
  memory_inv fs self (path_memory init) /\
  forall s, memory_inv fs self (path_memory s) ->
    (forall modalities ds case_name file_path,
       (forall m, m ∈ modalities -> m ∈ dict_keys (search_tags self)) ->
       passes fs self file_path ->
       memory_inv fs self
         (path_memory
            (search_modalities self modalities ds case_name file_path s).1)) /\
    (forall root files,
       memory_inv fs self (path_memory (scan_files fs self root files s).1)) /\
    (forall w, memory_inv fs self (path_memory (scan_dirs fs self w s).1)) /\
    memory_inv fs self (path_memory (scan_folder fs self s).1).
Proof.
  split; [apply memory_inv_init|]. intros s Hinv.
  split; [|split; [|split]].
  - intros modalities ds case_name file_path Hsub Hp.
    by apply (search_modalities_inv fs).
  - intros root files. by apply scan_files_inv.
  - intros w. by apply scan_dirs_inv.
  - by apply scan_folder_inv.
Qed.

Lemma path_memory_invariant_witness :
  memory_inv series_fs series_parser
    (path_memory (scan_folder series_fs series_parser init).1) /\
  memory_inv broken_fs series_parser
    (path_memory (scan_folder broken_fs series_parser init).1).
Proof.
  destruct (path_memory_invariant series_fs series_parser) as [Hi Hs].
  destruct (path_memory_invariant broken_fs series_parser) as [Hi' Hs'].
  split.
  - apply (Hs init). exact Hi.
  - apply (Hs' init). exact Hi'.
Defined.

Lemma dict_set_keys_elem {V : Type} (d : dict V) (k : string) (v : V) (x : string) :
  x ∈ dict_keys (dict_set d k v) <-> x ∈ dict_keys d \/ x = k.
Proof.
  induction d as [|[k0 v0] d IH]; simpl.
  - rewrite list_elem_of_singleton. split; [by right | intros [H|H]; [|done]].
    by apply elem_of_nil in H.
  - case_decide as Hk; simpl; rewrite !elem_of_cons.
    + subst k0. split; [by left | intros [H|H]; [done | by left]].
    + rewrite IH. split; intros H; [destruct H as [H|[H|H]] | destruct H as [[H|H]|H]];
        auto.
Qed.

Lemma dict_set_wf {V : Type} (d : dict V) (k : string) (v : V) :
  dict_wf d -> dict_wf (dict_set d k v).
Proof.
  unfold dict_wf. induction d as [|[k0 v0] d IH]; simpl.
  - intros _. apply NoDup_singleton.
  - intros H. apply NoDup_cons in H as [Hk0 Hd].
    case_decide as Hk; simpl; apply NoDup_cons; [done|].
    split; [|by apply IH].
    intros Hin. apply dict_set_keys_elem in Hin as [Hin|Hin]; [done | congruence].
Qed.

Lemma memory_set_wf (memory : NestedDefaultDict) (c m p : string) :
  memory_wf memory -> memory_wf (memory_set memory c m p).
Proof.
  intros [Hwf Hinner]. unfold memory_set. split; [by apply dict_set_wf|].
  intros c' inner' Hin. apply dict_set_elem in Hin as [Hin | [= -> ->]].
  - by apply (Hinner c').
  - apply dict_set_wf.
    destruct (dict_get memory c) as [inner|] eqn:E; simpl.
    + apply dict_get_Some_elem in E. by apply (Hinner c).
    + apply NoDup_nil_2.
Qed.

Lemma apply_writes_wf (ws : list write) (memory : NestedDefaultDict) :
  memory_wf memory -> memory_wf (apply_writes ws memory).
Proof.
  revert memory. induction ws as [|w ws IH]; intros memory H; [done|].
  apply (IH (apply_write memory w)). by apply memory_set_wf.
Qed.

(** The path memory left by a pass started by a new parser is a
    dictionary of dictionaries. *)
Lemma scan_folder_memory_wf (fs : filesystem) (self : DicomParser) :
  memory_wf (path_memory (scan_folder fs self init).1).
Proof.
  destruct (oblivious_scan_folder fs self) as (ws & r & H).
  destruct (H init) as [-> _]. apply apply_writes_wf.
  split; [apply NoDup_nil_2|]. intros c inner Hin. by apply elem_of_nil in Hin.
Qed.

(** ** Completeness validator *)

Lemma check_cases_elem (self : DicomParser) (count_search_tags : Z)
    (items : NestedDefaultDict) (call_once : bool) (c : string) (X : gset string) :
  MissingData c X ∈ check_cases self count_search_tags items call_once <->
  exists sequence_names,
    (c, sequence_names) ∈ items /\
    count_search_tags <> len sequence_names /\
    X = py_set (dict_keys (search_tags self)) ∖ py_set (dict_keys sequence_names).
Proof.
  revert call_once. induction items as [|[c0 seqs] items IH]; intros call_once.
  - simpl. split.
    + intros H. by apply elem_of_nil in H.
    + intros (seqs & H & _). by apply elem_of_nil in H.
  - cbn [check_cases]. case_bool_decide as Hn.
    + rewrite elem_of_app, elem_of_cons, IH. split.
      * intros [H | [H | (seqs' & H1 & H2 & H3)]].
        -- destruct call_once; [|by apply elem_of_nil in H].
           apply list_elem_of_singleton in H. discriminate.
        -- injection H as -> ->. exists seqs. split; [left | done].
        -- exists seqs'. split; [by right | done].
      * intros (seqs' & H1 & H2 & H3).
        apply elem_of_cons in H1 as [[= -> ->] | H1].
        -- right. left. by rewrite H3.
        -- right. right. by exists seqs'.
    + rewrite IH. split.
      * intros (seqs' & H1 & H2 & H3). exists seqs'. split; [by right | done].
      * intros (seqs' & H1 & H2 & H3).
        apply elem_of_cons in H1 as [[= -> ->] | H1]; [done|]. by exists seqs'.
Qed.

Lemma dict_keys_length {V : Type} (d : dict V) : length (dict_keys d) = length d.
Proof. unfold dict_keys. apply length_map. Qed.

Lemma missing_size (configured present : list string) :
  NoDup configured -> NoDup present ->
  (forall m, m ∈ present -> m ∈ configured) ->
  size (py_set configured ∖ py_set present)
  = (length configured - length present)%nat.
Proof.
  intros Hc Hp Hsub. unfold py_set. rewrite size_difference.
  - by rewrite !size_list_to_set.
  - intros m. rewrite !elem_of_list_to_set. apply Hsub.
Qed.

(** C4: for a case of the path memory with K of the M configured
    categories recorded, [check_path_memory] reports the M−K missing
    category names, which are the configured names that are not recorded for
    the case; a case with all categories recorded is not reported. *)
Theorem check_path_memory_reports (self : DicomParser)
    (memory : NestedDefaultDict) (case_name : string) (sequence_names : dict string) :
  dict_wf (search_tags self) -> dict_wf memory -> dict_wf sequence_names ->
  (case_name, sequence_names) ∈ memory ->
  (forall m, m ∈ dict_keys sequence_names -> m ∈ dict_keys (search_tags self)) ->
  let missing :=
    py_set (dict_keys (search_tags self)) ∖ py_set (dict_keys sequence_names) in
  size missing = (length (search_tags self) - length sequence_names)%nat /\
  (forall m, m ∈ missing <->
     m ∈ dict_keys (search_tags self) /\ m ∉ dict_keys sequence_names) /\
  (length sequence_names <> length (search_tags self) ->
   missing <> ∅ /\
   forall X, MissingData case_name X ∈ check_path_memory self memory <-> X = missing) /\
  (length sequence_names = length (search_tags self) ->
   missing = ∅ /\
   forall X, MissingData case_name X ∉ check_path_memory self memory).
Proof.
  intros Hst Hmem Hseq Hin Hsub missing.
  assert (Hsize : size missing
                  = (length (search_tags self) - length sequence_names)%nat).
  { unfold missing. rewrite missing_size by done.
    by rewrite !dict_keys_length. }
  assert (Hle : (length sequence_names <= length (search_tags self))%nat).
  { rewrite <- (dict_keys_length sequence_names).
    rewrite <- (dict_keys_length (search_tags self)).
    rewrite <- (size_list_to_set (C := gset string) _ Hseq).
    rewrite <- (size_list_to_set (C := gset string) _ Hst).
    apply subseteq_size. intros m. rewrite !elem_of_list_to_set. apply Hsub. }
  assert (Huniq : forall seqs, (case_name, seqs) ∈ memory -> seqs = sequence_names).
  { intros seqs H. apply (dict_get_elem_wf _ _ _ Hmem) in H, Hin. congruence. }
  split; [done|]. split; [|split].
  - intros m. unfold missing, py_set.
    by rewrite elem_of_difference, !elem_of_list_to_set.
  - intros Hne. split.
    + intros He. rewrite He, size_empty in Hsize. lia.
    + intros X. unfold check_path_memory. rewrite check_cases_elem. split.
      * intros (seqs & H1 & H2 & ->). by rewrite (Huniq seqs H1).
      * intros ->. exists sequence_names. split; [done|]. split; [|done].
        unfold len. lia.
  - intros He. split.
    + apply leibniz_equiv, size_empty_iff. lia.
    + intros X. unfold check_path_memory. rewrite check_cases_elem.
      intros (seqs & H1 & H2 & _). rewrite (Huniq seqs H1) in H2.
      unfold len in H2. lia.
Qed.

Lemma check_path_memory_reports_witness :
  let missing :=
    py_set ["t2_star"; "t2_spair"] ∖ py_set ["t2_star"] in
  size missing = 1%nat /\
  (forall m, m ∈ missing <->
     m ∈ ["t2_star"; "t2_spair"] /\ m ∉ ["t2_star"]) /\
  (1%nat <> 2%nat ->
   missing <> ∅ /\
   forall X, MissingData "P1" X ∈ check_path_memory main_parser example_memory
             <-> X = missing) /\
  (1%nat = 2%nat ->
   missing = ∅ /\
   forall X, MissingData "P1" X ∉ check_path_memory main_parser example_memory).
Proof.
  apply (check_path_memory_reports main_parser example_memory "P1"
           [("t2_star", "/scans/p1/star/1.dcm")]).
  - unfold dict_wf. compute_done.
  - unfold dict_wf. compute_done.
  - unfold dict_wf. compute_done.
  - left.
  - intros m Hm. simpl in Hm. apply list_elem_of_singleton in Hm as ->.
    simpl. left.
Defined.

Example check_path_memory_example :
  check_path_memory main_parser example_memory
  = [MissingHeader; MissingData "P1" (py_set ["t2_star"; "t2_spair"] ∖ py_set ["t2_star"])].
Proof. reflexivity. Qed.

(** * Further properties of the parser *)

(** ** The auto-expanding dictionary *)

Lemma dict_keys_set_new {V : Type} (d : dict V) (k : string) (v : V) :
  k ∉ dict_keys d -> dict_keys (dict_set d k v) = dict_keys d ++ [k].
Proof.
  induction d as [|[k0 v0] d IH]; simpl; [done|].
  intros H. apply not_elem_of_cons in H as [Hne Hd].
  rewrite decide_False by done. simpl. by rewrite IH.
Qed.

(** X1: after [memory[c][m] = p] the pair (c, m) reads [p], every other
    pair reads what it read before, and the cases keep their order: a case
    already there keeps its place, a new case comes last. *)
Theorem memory_set_lookup_order (memory : NestedDefaultDict) (c m p : string) :
  lookup2 (memory_set memory c m p) c m = Some p /\
  (forall c' m', (c', m') <> (c, m) ->
     lookup2 (memory_set memory c m p) c' m' = lookup2 memory c' m') /\
  dict_keys (memory_set memory c m p)
  = if bool_decide (c ∈ dict_keys memory) then dict_keys memory
    else dict_keys memory ++ [c].
Proof.
  split; [|split].
  - rewrite lookup2_memory_set. by rewrite decide_True.
  - intros c' m' Hne. rewrite lookup2_memory_set.
    rewrite decide_False; [done|]. intros [-> ->]. by apply Hne.
  - unfold memory_set. case_bool_decide as Hc.
    + by apply dict_keys_set.
    + by apply dict_keys_set_new.
Qed.

(** ** Tag matcher: degenerate value-groups *)

Lemma str_in_empty_l (s : string) : str_in "" s = true.
Proof. apply str_in_spec. by exists "", s. Qed.

Lemma keys_falsy_dec (tags : rules) (ds : dataset) :
  (forall key, key ∈ dict_keys tags -> falsy ds key = false) \/
  (exists key, key ∈ dict_keys tags /\ falsy ds key = true).
Proof.
  induction (dict_keys tags) as [|k ks IH].
  - left. intros key H. by apply elem_of_nil in H.
  - destruct (falsy ds k) eqn:E.
    + right. exists k. split; [left | done].
    + destruct IH as [IH | (key & Hk & Hf)].
      * left. intros key Hk. apply elem_of_cons in Hk as [->|Hk]; auto.
      * right. exists key. split; [by right | done].
Qed.

(** X2: a category that declares an empty value-group never matches,
    whatever the data set: [check_tags] returns false or raises. *)
Theorem check_tags_empty_group_never_matches (self : DicomParser) (ds : dataset)
    (modality case_name key : string) (tags : rules) (groups : list value_group) :
  dict_get (search_tags self) modality = Some tags ->
  dict_wf tags ->
  (key, groups) ∈ tags ->
  [] ∈ groups ->
  check_tags self ds modality case_name <> Ok true.
Proof.
  intros Ht Hwf Hin Hnil.
  destruct (keys_falsy_dec tags ds) as [Hf | (k & Hk & Hf)].
  - rewrite (check_tags_complete self ds modality case_name tags Ht Hwf Hf).
    intros [= H]. apply bool_decide_eq_true in H as [Heq _].
    destruct (proj1 (satisfied_all_groups tags ds Hf) Heq key groups [] Hin Hnil)
      as (meta & _ & Hs).
    done.
  - pose proof (check_tags_falsy self ds modality case_name k tags Ht Hk Hf) as H.
    intros E. by rewrite E in H.
Qed.

Lemma check_tags_empty_group_never_matches_witness :
  check_tags
    {| src := "/data"; dst := "/out"; min_number_of_slices := 1;
       file_types := [""]; search_tags := [("any", [("Modality", [["MR"]; []])])];
       exclude_tags := []; log_level := "INFO" |}
    (<["Modality" := "MR"]> ∅) "any" "case1" <> Ok true.
Proof.
  apply (check_tags_empty_group_never_matches _ _ "any" "case1" "Modality"
           [("Modality", [["MR"]; []])] [["MR"]; []]).
  - reflexivity.
  - unfold dict_wf. compute_done.
  - left.
  - right. left.
Defined.

(** X3: a value-group that contains the empty string is satisfied by every
    value: a category all of whose groups contain it matches every data set
    in which its keys have non-empty values. *)
Theorem check_tags_blank_substring_matches (self : DicomParser) (ds : dataset)
    (modality case_name : string) (tags : rules) :
  dict_get (search_tags self) modality = Some tags ->
  dict_wf tags ->
  total_groups tags <> 0%nat ->
  (forall key, key ∈ dict_keys tags -> falsy ds key = false) ->
  (forall key groups g, (key, groups) ∈ tags -> g ∈ groups -> "" ∈ g) ->
  check_tags self ds modality case_name = Ok true.
Proof.
  intros Ht Hwf Htot Hf Hblank.
  rewrite (check_tags_complete self ds modality case_name tags Ht Hwf Hf).
  f_equal. apply bool_decide_eq_true. split; [|done].
  apply satisfied_all_groups; [done|].
  intros key groups g Hin Hg.
  assert (Hk : key ∈ dict_keys tags)
    by (apply list_elem_of_fmap_2' with (x := (key, groups)); done).
  specialize (Hf key Hk). unfold falsy in Hf.
  destruct (ds !! key) as [meta|] eqn:E; [|done].
  exists meta. split; [done|]. unfold group_satisfied.
  apply existsb_elem_of. exists "". split; [by eapply Hblank|].
  apply str_in_empty_l.
Qed.

Lemma check_tags_blank_substring_matches_witness :
  check_tags
    {| src := "/data"; dst := "/out"; min_number_of_slices := 1;
       file_types := [""]; search_tags := [("any", [("Modality", [["MR"; ""]])])];
       exclude_tags := []; log_level := "INFO" |}
    (<["Modality" := "CT"]> ∅) "any" "case1" = Ok true.
Proof.
  apply (check_tags_blank_substring_matches _ _ "any" "case1"
           [("Modality", [["MR"; ""]])]).
  - reflexivity.
  - unfold dict_wf. compute_done.
  - vm_compute. lia.
  - intros key Hk. simpl in Hk. apply list_elem_of_singleton in Hk as ->.
    reflexivity.
  - intros key groups g Hin Hg.
    apply list_elem_of_singleton in Hin. injection Hin as -> ->.
    apply list_elem_of_singleton in Hg as ->. right. left.
Defined.

(** ** Candidate filter: degenerate exclusion *)

(** X4: when the empty string is among the excluded substrings no path
    passes the candidate filter, since the empty string occurs in every
    path. *)
Theorem check_file_blank_exclusion (fs : filesystem) (self : DicomParser)
    (file_path : string) :
  "" ∈ exclude_tags self -> ~ passes fs self file_path.
Proof.
  intros Hin [c [Hc Hne]]. unfold check_file in Hc.
  destruct (os_listdir fs (os_path_dirname file_path)); [|done].
  rewrite list_truthy_filter in Hc.
  assert (existsb (fun x => str_in x file_path) (exclude_tags self) = true) as E.
  { apply existsb_elem_of. exists "". split; [done | apply str_in_empty_l]. }
  rewrite E in Hc. injection Hc as <-. simpl in Hne. lia.
Qed.

Lemma check_file_blank_exclusion_witness :
  ~ passes series_fs
      {| src := "/data"; dst := "/out"; min_number_of_slices := 1;
         file_types := [".dcm"]; search_tags := [];
         exclude_tags := ["DICOMDIR"; ""]; log_level := "INFO" |}
      "/data/b/1.dcm".
Proof.
  apply check_file_blank_exclusion. simpl. right. left.
Defined.

(** ** Paths of walked files *)

Lemma has_slash_app (a b : string) :
  has_slash (a +:+ b) = has_slash a || has_slash b.
Proof.
  induction a as [|c a IH]; [done|].
  rewrite app_String. simpl. rewrite IH. by rewrite orb_assoc.
Qed.

Lemma all_slash_app (a b : string) :
  all_slash (a +:+ b) = all_slash a && all_slash b.
Proof.
  induction a as [|c a IH]; [done|].
  rewrite app_String. simpl. rewrite IH. by rewrite andb_assoc.
Qed.

Lemma path_head_no_slash (b : string) : has_slash b = false -> path_head b = "".
Proof. destruct b as [|c b]; [done|]. cbn [path_head]. by intros ->. Qed.

Lemma path_head_app_no_slash (a b : string) :
  has_slash b = false -> path_head (a +:+ b) = path_head a.
Proof.
  intros Hb. induction a as [|c a IH].
  - by apply path_head_no_slash.
  - rewrite app_String. cbn [path_head]. rewrite <- app_String, has_slash_app, Hb.
    rewrite orb_false_r, IH. done.
Qed.

Lemma path_head_app_slash (a b : string) :
  has_slash b = false -> path_head (a +:+ "/" +:+ b) = a +:+ "/".
Proof.
  intros Hb. induction a as [|c a IH].
  - rewrite app_empty_l. change ("/" +:+ b) with (String slash b).
    cbn [path_head has_slash]. rewrite decide_True by done. simpl.
    by rewrite (path_head_no_slash b Hb).
  - rewrite (app_String c a ("/" +:+ b)), (app_String c a "/").
    cbn [path_head]. rewrite IH.
    rewrite <- (app_String c a ("/" +:+ b)), has_slash_app.
    change ("/" +:+ b) with (String slash b). cbn [has_slash].
    rewrite (decide_True (P := slash = slash)) by done. simpl.
    by rewrite orb_true_r.
Qed.

Lemma rstrip_slash_app_slash (a : string) :
  rstrip_slash (a +:+ "/") = rstrip_slash a.
Proof.
  induction a as [|c a IH]; [done|].
  rewrite app_String. cbn [rstrip_slash]. rewrite <- app_String, all_slash_app.
  change (all_slash "/") with true. rewrite andb_true_r, IH. done.
Qed.

Lemma all_slash_endswith (a : string) :
  all_slash a = true -> a = "" \/ endswith a "/" = true.
Proof.
  induction a as [|c a IH]; [by left|]. simpl.
  case_decide as Hc; [|done]. simpl. intros Ha. right.
  destruct (IH Ha) as [-> | He].
  - subst c. reflexivity.
  - rewrite He. by rewrite orb_true_r.
Qed.

Lemma endswith_slash_head (a : string) :
  endswith a "/" = true -> path_head a = a.
Proof.
  intros [pre ->]%endswith_spec.
  by rewrite <- (path_head_app_slash pre "" eq_refl) at 2.
Qed.

Lemma rstrip_slash_no_trailing (a : string) :
  endswith a "/" = false -> rstrip_slash a = a.
Proof.
  induction a as [|c a IH]; [done|].
  intros He. cbn [rstrip_slash].
  destruct (all_slash (String c a)) eqn:Ea.
  - apply all_slash_endswith in Ea as [? | ?]; congruence.
  - f_equal. apply IH. simpl in He. apply orb_false_elim in He as [_ He].
    done.
Qed.

Lemma prefix_slash_has_slash (b : string) :
  has_slash b = false -> String.prefix "/" b = false.
Proof.
  destruct b as [|c b]; [done|]. simpl.
  case_decide as Hc; [done|]. intros _.
  change (match Ascii.ascii_dec slash c with
          | left _ => String.prefix "" b
          | right _ => false
          end = false).
  destruct (Ascii.ascii_dec slash c) as [E|]; [|done]. by destruct Hc.
Qed.

Lemma dirname_join (root file : string) :
  has_slash file = false ->
  os_path_dirname (os_path_join root file)
  = if all_slash root then root else rstrip_slash root.
Proof.
  intros Hf. unfold os_path_join. rewrite (prefix_slash_has_slash file Hf).
  destruct root as [|c root].
  - simpl. unfold os_path_dirname. rewrite app_empty_l.
    by rewrite (path_head_no_slash file Hf).
  - change (negb (str_truthy (String c root))) with false. rewrite orb_false_l.
    destruct (endswith (String c root) "/") eqn:He.
    + unfold os_path_dirname. rewrite (path_head_app_no_slash _ _ Hf).
      rewrite (endswith_slash_head _ He). simpl str_truthy. rewrite andb_true_l.
      by destruct (all_slash (String c root)).
    + unfold os_path_dirname. rewrite (path_head_app_slash _ _ Hf).
      rewrite all_slash_app. change (all_slash "/") with true.
      rewrite andb_true_r, rstrip_slash_app_slash.
      destruct (all_slash (String c root)) eqn:Ea.
      * apply all_slash_endswith in Ea as [? | ?]; congruence.
      * rewrite app_String. simpl str_truthy. done.
Qed.

(** X5: for a file of a walked directory (a name without a slash) the
    directory whose entries [check_file] counts is the walked directory:
    [root] itself when it has no trailing slash, else [root] without its
    trailing slashes (or [root] if it consists of slashes only); with fewer
    entries there than the minimum the file is rejected. *)
Theorem check_file_counts_walked_directory (fs : filesystem) (self : DicomParser)
    (root file : string) :
  has_slash file = false ->
  os_path_dirname (os_path_join root file)
  = (if all_slash root then root else rstrip_slash root) /\
  (endswith root "/" = false -> os_path_dirname (os_path_join root file) = root) /\
  forall entries,
    os_listdir fs (if all_slash root then root else rstrip_slash root)
    = Some entries ->
    len entries < min_number_of_slices self ->
    check_file fs self (os_path_join root file) = Ok 0.
Proof.
  intros Hf. pose proof (dirname_join root file Hf) as Hd.
  split; [done|]. split.
  - intros He. rewrite Hd. rewrite (rstrip_slash_no_trailing root He).
    by destruct (all_slash root).
  - intros entries Hl Hlt. unfold check_file. rewrite Hd, Hl.
    rewrite bool_decide_eq_false_2 by lia. f_equal. simpl. lia.
Qed.

Lemma check_file_counts_walked_directory_witness :
  os_path_dirname (os_path_join "/data/c/" "1.dcm") = "/data/c" /\
  (endswith "/data/c/" "/" = false ->
   os_path_dirname (os_path_join "/data/c/" "1.dcm") = "/data/c/") /\
  forall entries,
    os_listdir series_fs "/data/c" = Some entries ->
    len entries < 2 ->
    check_file series_fs series_parser (os_path_join "/data/c/" "1.dcm") = Ok 0.
Proof.
  apply (check_file_counts_walked_directory series_fs series_parser
           "/data/c/" "1.dcm").
  reflexivity.
Defined.

(** X6: a directory that has fewer entries than the minimum is skipped as
    a whole: none of its files is a candidate and the scan of the
    directory reads no file and leaves the path memory as it is. *)
Theorem small_directory_skipped (fs : filesystem) (self : DicomParser)
    (root : string) (files entries : list string) (s : state) :
  endswith root "/" = false ->
  (forall file, file ∈ files -> has_slash file = false) ->
  os_listdir fs root = Some entries ->
  len entries < min_number_of_slices self ->
  first_candidate fs self root files = None /\
  scan_files fs self root files s = (log_events s (checks root files), Ok tt).
Proof.
  intros He Hfiles Hl Hlt.
  assert (Hzero : forall file, file ∈ files ->
                    check_file fs self (os_path_join root file) = Ok 0).
  { intros file Hin. unfold check_file.
    rewrite (dirname_join root file (Hfiles file Hin)).
    rewrite (rstrip_slash_no_trailing root He).
    replace (if all_slash root then root else root) with root
      by (by destruct (all_slash root)).
    rewrite Hl, bool_decide_eq_false_2 by lia. f_equal. simpl. lia. }
  clear Hfiles. revert s. induction files as [|file files IH]; intros s.
  - split; [done|]. by rewrite log_events_nil.
  - destruct (IH (fun f H => Hzero f (list_elem_of_further _ _ _ H))
                (log_events s [CheckFile (os_path_join root file)]))
      as [IH1 IH2].
    split.
    + simpl. rewrite (Hzero file) by left.
      rewrite bool_decide_eq_false_2 by (intros H; by apply H). exact IH1.
    + rewrite scan_files_cons. cbv zeta. rewrite (Hzero file) by left.
      rewrite bool_decide_eq_false_2 by (intros H; by apply H). rewrite IH2.
      by rewrite log_events_app.
Qed.

Lemma small_directory_skipped_witness :
  first_candidate series_fs series_parser "/data/c" ["1.dcm"] = None /\
  scan_files series_fs series_parser "/data/c" ["1.dcm"] init
  = (log_events init (checks "/data/c" ["1.dcm"]), Ok tt).
Proof.
  apply (small_directory_skipped series_fs series_parser "/data/c" ["1.dcm"]
           ["1.dcm"] init).
  - reflexivity.
  - intros file Hin. apply list_elem_of_singleton in Hin as ->. reflexivity.
  - reflexivity.
  - reflexivity.
Defined.

(** ** Classifier: case identity and errors *)

(** X7: a file whose data set has no [PatientName] is recorded under the
    case name "None": a category it matches is stored there, and no other
    case is touched. *)
Theorem missing_patient_name_case_None (fs : filesystem) (self : DicomParser)
    (file_path m : string) (ds : dataset) (s s' : state) :
  dcmread fs file_path = Some ds ->
  ds !! "PatientName" = None ->
  meta_data_search fs self file_path s = (s', Ok tt) ->
  check_tags self ds m "None" = Ok true ->
  lookup2 (path_memory s') "None" m = Some file_path /\
  forall c m', c <> "None" ->
    lookup2 (path_memory s') c m' = lookup2 (path_memory s) c m'.
Proof.
  intros Hds Hpn Hrun Hm.
  assert (Hname : patient_name ds = "None") by (unfold patient_name; by rewrite Hpn).
  split.
  - rewrite (meta_data_search_lookup _ _ _ _ _ "None" m Hrun).
    unfold matchesb, tag_match. rewrite Hds, Hname, Hm.
    by rewrite bool_decide_eq_true_2.
  - intros c m' Hc. rewrite (meta_data_search_lookup _ _ _ _ _ c m' Hrun).
    unfold matchesb. rewrite Hds, Hname.
    by rewrite bool_decide_eq_false_2 by congruence.
Qed.

Lemma missing_patient_name_case_None_witness :
  lookup2
    (path_memory
       (meta_data_search (series_fs_with ds_anonymous) series_parser
          "/data/b/1.dcm" init).1) "None" "seriesA"
  = Some "/data/b/1.dcm" /\
  forall c m', c <> "None" ->
    lookup2
      (path_memory
         (meta_data_search (series_fs_with ds_anonymous) series_parser
            "/data/b/1.dcm" init).1) c m'
    = lookup2 (path_memory init) c m'.
Proof.
  apply (missing_patient_name_case_None (series_fs_with ds_anonymous)
           series_parser "/data/b/1.dcm" "seriesA" ds_anonymous init).
  - reflexivity.
  - reflexivity.
  - vm_compute. reflexivity.
  - vm_compute. reflexivity.
Defined.

Lemma search_modalities_all_Ok (self : DicomParser) (modalities : list string)
    (ds : dataset) (case_name file_path : string) (s : state) :
  (forall m, m ∈ modalities -> exists b, check_tags self ds m case_name = Ok b) ->
  (search_modalities self modalities ds case_name file_path s).2 = Ok tt.
Proof.
  revert s. induction modalities as [|m ms IH]; intros s H; [done|].
  rewrite search_modalities_cons.
  destruct (H m) as [b ->]; [left|].
  destruct b; apply IH; intros; apply H; by right.
Qed.

Lemma search_modalities_app_raise (self : DicomParser) (pre : list string)
    (m : string) (post : list string) (ds : dataset)
    (case_name file_path : string) (s : state) (e : exn) :
  check_tags self ds m case_name = Raise e ->
  (forall m', m' ∈ pre -> exists b, check_tags self ds m' case_name = Ok b) ->
  search_modalities self (pre ++ m :: post) ds case_name file_path s
  = ((search_modalities self pre ds case_name file_path s).1, Raise e).
Proof.
  intros He. revert s. induction pre as [|m0 pre IH]; intros s H.
  - simpl app. rewrite search_modalities_cons, He. done.
  - simpl app. rewrite !search_modalities_cons.
    destruct (H m0) as [b ->]; [left|].
    destruct b; apply IH; intros; apply H; by right.
Qed.

(** X8: when [check_tags] raises for a category, the categories before it
    that matched the same file stay recorded in the path memory: the
    error does not undo them. *)
Theorem raise_keeps_earlier_matches (fs : filesystem) (self : DicomParser)
    (file_path : string) (ds : dataset) (pre : list string) (m : string)
    (post : list string) (e : exn) (s : state) :
  dcmread fs file_path = Some ds ->
  dict_keys (search_tags self) = pre ++ m :: post ->
  check_tags self ds m (patient_name ds) = Raise e ->
  (forall m', m' ∈ pre -> exists b, check_tags self ds m' (patient_name ds) = Ok b) ->
  (meta_data_search fs self file_path s).2 = Raise e /\
  forall m', m' ∈ pre ->
    check_tags self ds m' (patient_name ds) = Ok true ->
    lookup2 (path_memory (meta_data_search fs self file_path s).1)
      (patient_name ds) m' = Some file_path.
Proof.
  intros Hds Hkeys He Hpre.
  rewrite meta_data_search_unfold, Hds, Hkeys.
  rewrite (search_modalities_app_raise self pre m post ds _ _ _ e He Hpre).
  split; [done|]. intros m' Hin Hm'. cbn [fst].
  pose proof (search_modalities_all_Ok self pre ds (patient_name ds) file_path
                (log_events s [DcmRead file_path]) Hpre) as Hok.
  destruct (search_modalities self pre ds (patient_name ds) file_path
              (log_events s [DcmRead file_path])) as [s1 r] eqn:E.
  simpl in Hok. subst r. cbn [fst].
  rewrite (search_modalities_lookup _ _ _ _ _ _ _ (patient_name ds) m' E).
  rewrite bool_decide_eq_true_2 by done.
  unfold tag_match. by rewrite Hm'.
Qed.

Lemma raise_keeps_earlier_matches_witness :
  (meta_data_search (series_fs_with ds_t2_star) two_category_parser
     "/data/b/1.dcm" init).2
  = Raise (missing_value_error "case1" "SequenceName") /\
  forall m', m' ∈ ["t2_star"] ->
    check_tags two_category_parser ds_t2_star m' (patient_name ds_t2_star)
    = Ok true ->
    lookup2
      (path_memory
         (meta_data_search (series_fs_with ds_t2_star) two_category_parser
            "/data/b/1.dcm" init).1) (patient_name ds_t2_star) m'
    = Some "/data/b/1.dcm".
Proof.
  apply (raise_keeps_earlier_matches (series_fs_with ds_t2_star)
           two_category_parser "/data/b/1.dcm" ds_t2_star
           ["t2_star"] "flow" []
           (missing_value_error "case1" "SequenceName") init).
  - reflexivity.
  - reflexivity.
  - reflexivity.
  - intros m' Hin. apply list_elem_of_singleton in Hin as ->.
    exists true. vm_compute. reflexivity.
Defined.

(** ** Classifier: the whole walk *)

Lemma chosen_files_cons (fs : filesystem) (self : DicomParser)
    (root : string) (dirs files : list string)
    (rest : list (string * list string * list string)) :
  chosen_files fs self ((root, dirs, files) :: rest) =
  match first_candidate fs self root files with
  | Some p => p :: chosen_files fs self rest
  | None => chosen_files fs self rest
  end.
Proof. reflexivity. Qed.

Lemma last_match_cons (fs : filesystem) (self : DicomParser) (p : string)
    (files : list string) (c m : string) :
  last_match fs self (p :: files) c m =
  match last_match fs self files c m with
  | Some q => Some q
  | None => if matchesb fs self p c m then Some p else None
  end.
Proof.
  unfold last_match. simpl.
  destruct (matchesb fs self p c m); [|by destruct (last _)].
  rewrite last_cons. by destruct (last _).
Qed.

Lemma scan_dirs_last_match (fs : filesystem) (self : DicomParser)
    (w : list (string * list string * list string)) (s s' : state) (c m : string) :
  scan_dirs fs self w s = (s', Ok tt) ->
  lookup2 (path_memory s') c m =
  match last_match fs self (chosen_files fs self w) c m with
  | Some p => Some p
  | None => lookup2 (path_memory s) c m
  end.
Proof.
  revert s. induction w as [|[[root dirs] files] w IH]; intros s.
  - by intros [= <-].
  - intros H. apply scan_dirs_cons_Ok in H as (s1 & H1 & H2).
    rewrite (IH _ H2), chosen_files_cons.
    rewrite (scan_files_lookup _ _ _ _ _ _ c m H1).
    destruct (first_candidate fs self root files) as [p|]; [|done].
    rewrite last_match_cons.
    destruct (last_match fs self (chosen_files fs self w) c m); [done|].
    by destruct (matchesb fs self p c m).
Qed.

(** X9: after a scan that ends normally the location stored for a (case,
    category) pair is that of the last file, among the first candidates of
    the walked directories in order, that matches the pair; if none does,
    the pair reads what it read before the scan. *)
Theorem scan_folder_last_match (fs : filesystem) (self : DicomParser)
    (s s' : state) (c m : string) :
  scan_folder fs self s = (s', Ok tt) ->
  lookup2 (path_memory s') c m =
  match last_match fs self (chosen_files fs self (os_walk fs (src self))) c m with
  | Some p => Some p
  | None => lookup2 (path_memory s) c m
  end.
Proof.
  rewrite scan_folder_unfold.
  destruct (scan_dirs fs self (os_walk fs (src self)) s) as [s1 [[]|e]] eqn:E;
    [|done].
  intros [= <-]. cbn [log_events path_memory].
  by apply scan_dirs_last_match.
Qed.

Lemma scan_folder_last_match_witness :
  lookup2 (path_memory (scan_folder series_fs series_parser init).1)
    "case1" "seriesA"
  = match last_match series_fs series_parser
            (chosen_files series_fs series_parser
               (os_walk series_fs (src series_parser))) "case1" "seriesA" with
    | Some p => Some p
    | None => lookup2 (path_memory init) "case1" "seriesA"
    end.
Proof.
  apply (scan_folder_last_match series_fs series_parser init
           (scan_folder series_fs series_parser init).1 "case1" "seriesA").
  vm_compute. reflexivity.
Defined.

Lemma memory_set_keys_prefix (memory : NestedDefaultDict) (c m p : string) :
  dict_keys memory `prefix_of` dict_keys (memory_set memory c m p).
Proof.
  unfold memory_set. destruct (decide (c ∈ dict_keys memory)) as [Hc|Hc].
  - by rewrite dict_keys_set.
  - rewrite dict_keys_set_new by done. by apply prefix_app_r.
Qed.

Lemma apply_writes_keys_prefix (ws : list write) (memory : NestedDefaultDict) :
  dict_keys memory `prefix_of` dict_keys (apply_writes ws memory).
Proof.
  revert memory. induction ws as [|w ws IH]; intros memory; [done|].
  change (dict_keys memory
            `prefix_of` dict_keys (apply_writes ws (apply_write memory w))).
  etrans; [|apply IH]. apply memory_set_keys_prefix.
Qed.

(** X10: a scan never removes anything from the path memory, whether it
    ends normally or by an error: a (case, category) pair that had a
    location still has one, and the cases that were there come first, in
    their order. *)
Theorem scan_folder_keeps_entries (fs : filesystem) (self : DicomParser)
    (s : state) :
  (forall c m, lookup2 (path_memory s) c m <> None ->
     lookup2 (path_memory (scan_folder fs self s).1) c m <> None) /\
  dict_keys (path_memory s)
    `prefix_of` dict_keys (path_memory (scan_folder fs self s).1).
Proof.
  destruct (oblivious_scan_folder fs self) as (ws & r & H).
  destruct (H s) as [-> _]. split.
  - intros c m Hin. rewrite lookup2_apply_writes.
    by destruct (last_write ws (c, m)).
  - apply apply_writes_keys_prefix.
Qed.

Lemma reads_app (l1 l2 : list event) : reads (l1 ++ l2) = reads l1 ++ reads l2.
Proof. unfold reads. apply omap_app. Qed.

Lemma scan_files_reads (fs : filesystem) (self : DicomParser) (root : string)
    (files : list string) (s s' : state) :
  scan_files fs self root files s = (s', Ok tt) ->
  reads (trace s') =
  reads (trace s) ++ match first_candidate fs self root files with
                     | Some p => [p]
                     | None => []
                     end.
Proof.
  revert s. induction files as [|file files IH]; intros s.
  - intros [= <-]. simpl. by rewrite app_nil_r.
  - rewrite scan_files_cons. cbv zeta. cbn [first_candidate].
    destruct (check_file fs self (os_path_join root file)) as [z|e]; [|done].
    case_bool_decide as Hz.
    + intros H.
      pose proof (meta_data_search_trace fs self (os_path_join root file)
                    (log_events s [CheckFile (os_path_join root file)])) as Ht.
      rewrite H in Ht. cbn [fst] in Ht. rewrite Ht. cbn [log_events trace].
      rewrite !reads_app. simpl. by rewrite app_nil_r.
    + intros H. rewrite (IH _ H). cbn [log_events trace].
      rewrite reads_app. simpl. by rewrite app_nil_r.
Qed.

Lemma scan_dirs_reads (fs : filesystem) (self : DicomParser)
    (w : list (string * list string * list string)) (s s' : state) :
  scan_dirs fs self w s = (s', Ok tt) ->
  reads (trace s') = reads (trace s) ++ chosen_files fs self w.
Proof.
  revert s. induction w as [|[[root dirs] files] w IH]; intros s.
  - intros [= <-]. simpl. by rewrite app_nil_r.
  - intros H. apply scan_dirs_cons_Ok in H as (s1 & H1 & H2).
    rewrite (IH _ H2), (scan_files_reads _ _ _ _ _ _ H1), chosen_files_cons.
    rewrite <- app_assoc.
    by destruct (first_candidate fs self root files).
Qed.

(** X11: a scan that ends normally has read exactly the first candidate of
    each walked directory that has one, in walk order, and its last action
    is to log the final path memory. *)
Theorem scan_folder_reads_chosen_files (fs : filesystem) (self : DicomParser)
    (s s' : state) :
  scan_folder fs self s = (s', Ok tt) ->
  reads (trace s')
  = reads (trace s) ++ chosen_files fs self (os_walk fs (src self)) /\
  last (trace s') = Some (LogInfo (path_memory s')).
Proof.
  rewrite scan_folder_unfold.
  destruct (scan_dirs fs self (os_walk fs (src self)) s) as [s1 [[]|e]] eqn:E;
    [|done].
  intros [= <-]. cbn [log_events path_memory trace]. split.
  - rewrite reads_app, (scan_dirs_reads _ _ _ _ _ E). simpl.
    by rewrite app_nil_r.
  - by rewrite last_snoc.
Qed.

Lemma scan_folder_reads_chosen_files_witness :
  reads (trace (scan_folder series_fs series_parser init).1)
  = reads (trace init)
    ++ chosen_files series_fs series_parser (os_walk series_fs (src series_parser)) /\
  last (trace (scan_folder series_fs series_parser init).1)
  = Some (LogInfo (path_memory (scan_folder series_fs series_parser init).1)).
Proof.
  apply (scan_folder_reads_chosen_files series_fs series_parser init).
  vm_compute. reflexivity.
Defined.

Example chosen_files_series :
  chosen_files series_fs series_parser (os_walk series_fs (src series_parser))
  = ["/data/a/1.dcm"; "/data/b/1.dcm"].
Proof. vm_compute. reflexivity. Qed.

(** ** Completeness validator: the report as a whole *)

Lemma check_cases_closed (self : DicomParser) (items : NestedDefaultDict)
    (call_once : bool) :
  check_cases self (len (search_tags self)) items call_once =
  match List.filter (incomplete self) items with
  | [] => []
  | inc => (if call_once then [MissingHeader] else []) ++ map (missing_line self) inc
  end.
Proof.
  revert call_once. induction items as [|[c seqs] items IH]; intros call_once;
    [done|].
  cbn [check_cases List.filter]. unfold incomplete at 1. cbn [snd].
  destruct (bool_decide (len (search_tags self) <> len seqs)).
  - rewrite IH. f_equal. unfold missing_line at 2. cbn [fst snd map]. f_equal.
    by destruct (List.filter (incomplete self) items).
  - apply IH.
Qed.

(** X12: the report of [check_path_memory] is empty when every case has as
    many categories as are configured; otherwise it is the header, once and
    first, followed by one line for each case with another number of
    categories, in the order of the path memory. *)
Theorem check_path_memory_header_once (self : DicomParser)
    (memory : NestedDefaultDict) :
  check_path_memory self memory =
  match List.filter (incomplete self) memory with
  | [] => []
  | inc => MissingHeader :: map (missing_line self) inc
  end.
Proof. unfold check_path_memory. by rewrite check_cases_closed. Qed.

(** X13: after a scan started by a new parser with distinct category
    names, a case of the path memory is reported exactly when some
    configured category has no location for it, and then with exactly those
    categories. *)
Theorem validator_after_scan (fs : filesystem) (self : DicomParser)
    (c : string) (seqs : dict string) :
  dict_wf (search_tags self) ->
  (c, seqs) ∈ path_memory (scan_folder fs self init).1 ->
  let memory := path_memory (scan_folder fs self init).1 in
  let missing := py_set (dict_keys (search_tags self)) ∖ py_set (dict_keys seqs) in
  (forall m, m ∈ missing <->
     m ∈ dict_keys (search_tags self) /\ lookup2 memory c m = None) /\
  (forall X, MissingData c X ∈ check_path_memory self memory <->
     X = missing /\ missing <> ∅).
Proof.
  intros Hst Hin memory missing.
  destruct (scan_folder_memory_wf fs self) as [Hwf Hinner].
  fold memory in Hwf, Hinner.
  pose proof (scan_folder_inv fs self init (memory_inv_init fs self)) as Hinv.
  fold memory in Hinv.
  assert (Hseq : dict_wf seqs) by (by apply (Hinner c)).
  assert (Hsub : forall m, m ∈ dict_keys seqs -> m ∈ dict_keys (search_tags self)).
  { intros m Hm. apply dict_get_key in Hm as [p Hp].
    apply dict_get_Some_elem in Hp. by apply (Hinv c seqs m p). }
  assert (Hget : dict_get memory c = Some seqs) by (by apply dict_get_elem_wf).
  assert (Hsize : size missing
                  = (length (search_tags self) - length seqs)%nat).
  { unfold missing. rewrite missing_size by done.
    by rewrite !dict_keys_length. }
  assert (Hle : (length seqs <= length (search_tags self))%nat).
  { rewrite <- (dict_keys_length seqs), <- (dict_keys_length (search_tags self)).
    rewrite <- (size_list_to_set (C := gset string) _ Hseq).
    rewrite <- (size_list_to_set (C := gset string) _ Hst).
    apply subseteq_size. intros m. rewrite !elem_of_list_to_set. apply Hsub. }
  split.
  - intros m. unfold missing, py_set, lookup2.
    rewrite elem_of_difference, !elem_of_list_to_set, Hget, dict_get_None. done.
  - intros X. unfold check_path_memory. rewrite check_cases_elem. split.
    + intros (seqs' & H1 & H2 & ->).
      assert (seqs' = seqs) as ->
        by (apply (dict_get_elem_wf _ _ _ Hwf) in H1; congruence).
      split; [done|]. fold missing. intros He.
      rewrite He, size_empty in Hsize. unfold len in H2. lia.
    + intros [-> Hne]. exists seqs. split; [done|]. split; [|done].
      unfold len. intros He. apply Hne.
      apply leibniz_equiv, size_empty_iff. lia.
Qed.

Lemma validator_after_scan_witness :
  let memory := path_memory (scan_folder series_fs series_parser init).1 in
  let missing :=
    py_set (dict_keys (search_tags series_parser))
      ∖ py_set (dict_keys [("seriesA", "/data/b/1.dcm")]) in
  (forall m, m ∈ missing <->
     m ∈ dict_keys (search_tags series_parser) /\ lookup2 memory "case1" m = None) /\
  (forall X, MissingData "case1" X ∈ check_path_memory series_parser memory <->
     X = missing /\ missing <> ∅).
Proof.
  apply (validator_after_scan series_fs series_parser "case1"
           [("seriesA", "/data/b/1.dcm")]).
  - unfold dict_wf. compute_done.
  - vm_compute. left.
Defined.

(** ** [show_certain_meta_data] *)

Lemma show_files_Ok (fs : filesystem) (self : DicomParser)
    (tags : option (list string)) (root : string) (files : list string)
    (out : list printed) :
  show_files fs self tags root files = (out, Ok tt) ->
  out = match first_candidate fs self root files with
        | Some p => show_block fs tags p
        | None => []
        end.
Proof.
  induction files as [|file files IH]; cbn [show_files first_candidate].
  - by intros [= <-].
  - cbv zeta. destruct (check_file fs self (os_path_join root file)) as [c|e];
      [|done].
    case_bool_decide as Hc; [|done].
    unfold show_block.
    destruct (dcmread fs (os_path_join root file)) as [ds|]; [|done].
    by intros [= <-].
Qed.

Lemma show_dirs_Ok (fs : filesystem) (self : DicomParser)
    (tags : option (list string))
    (w : list (string * list string * list string)) (out : list printed) :
  show_dirs fs self tags w = (out, Ok tt) ->
  out = flat_map (show_block fs tags) (chosen_files fs self w).
Proof.
  revert out. induction w as [|[[root dirs] files] w IH]; intros out.
  - by intros [= <-].
  - cbn [show_dirs]. rewrite chosen_files_cons.
    destruct (show_files fs self tags root files) as [out1 [[]|e]] eqn:E1; [|done].
    destruct (show_dirs fs self tags w) as [out2 r] eqn:E2.
    intros [= <- ->]. rewrite (IH out2 eq_refl).
    rewrite (show_files_Ok _ _ _ _ _ _ E1).
    destruct (first_candidate fs self root files); [|done].
    cbn [flat_map]. done.
Qed.

(** X14: when it ends normally [show_certain_meta_data] has printed one
    block for each file a scan reads, the first candidate of each walked
    directory that has one, in walk order: the path and one line for each
    tag, or the whole data set when [tags] is [None] or empty. *)
Theorem show_certain_meta_data_output (fs : filesystem) (self : DicomParser)
    (tags : option (list string)) (out : list printed) :
  show_certain_meta_data fs self tags = (out, Ok tt) ->
  out = flat_map (show_block fs tags)
          (chosen_files fs self (os_walk fs (src self))).
Proof. apply show_dirs_Ok. Qed.

Lemma show_certain_meta_data_output_witness :
  (show_certain_meta_data series_fs series_parser (Some ["Kind"; "StudyDate"])).1
  = flat_map (show_block series_fs (Some ["Kind"; "StudyDate"]))
      (chosen_files series_fs series_parser
         (os_walk series_fs (src series_parser))).
Proof.
  apply (show_certain_meta_data_output series_fs series_parser
           (Some ["Kind"; "StudyDate"])).
  vm_compute. reflexivity.
Defined.

Example show_certain_meta_data_series :
  (show_certain_meta_data series_fs series_parser (Some ["Kind"; "StudyDate"])).1
  = [PrintText (newline +:+ "/data/a/1.dcm");
     PrintText "Kind                X-ray";
     PrintText "StudyDate           None";
     PrintText (newline +:+ "/data/b/1.dcm");
     PrintText "Kind                X-ray";
     PrintText "StudyDate           None"].
Proof. vm_compute. reflexivity. Qed.

Lemma check_file_raises_OSError (fs : filesystem) (self : DicomParser)
    (file_path : string) (e : exn) :
  check_file fs self file_path = Raise e -> exists path, e = OSError path.
Proof.
  unfold check_file. destruct (os_listdir fs _); [done|].
  intros [= <-]. by eexists.
Qed.

Lemma show_files_raises_OSError (fs : filesystem) (self : DicomParser)
    (tags : option (list string)) (root : string) (files : list string) (e : exn) :
  (show_files fs self tags root files).2 = Raise e -> exists path, e = OSError path.
Proof.
  induction files as [|file files IH]; cbn [show_files]; [done|].
  cbv zeta. destruct (check_file fs self (os_path_join root file)) as [c|e'] eqn:E.
  - case_bool_decide as Hc; [|done].
    destruct (dcmread fs (os_path_join root file)); [done|].
    intros [= <-]. by eexists.
  - intros [= <-]. by apply check_file_raises_OSError in E.
Qed.

(** X15: [show_certain_meta_data] never raises the ValueError of the tag
    matcher: a tag that the data set lacks is printed as "None", and the
    only errors are those of listing a directory and reading a file. *)
Theorem show_certain_meta_data_no_ValueError (fs : filesystem)
    (self : DicomParser) (tags : option (list string)) :
  (forall e, (show_certain_meta_data fs self tags).2 = Raise e ->
     exists path, e = OSError path) /\
  forall file_path ds tag,
    ds !! tag = None -> tag ∈ default [] tags ->
    PrintText (ljust tag 20 +:+ "None") ∈ show_dataset tags file_path ds.
Proof.
  split.
  - unfold show_certain_meta_data.
    induction (os_walk fs (src self)) as [|[[root dirs] files] w IH];
      cbn [show_dirs]; [done|].
    intros e.
    destruct (show_files fs self tags root files) as [out1 [[]|e1]] eqn:E1.
    + destruct (show_dirs fs self tags w) as [out2 r]. apply IH.
    + intros [= <-].
      apply (show_files_raises_OSError fs self tags root files).
      by rewrite E1.
  - intros file_path ds tag Hnone Hin. unfold show_dataset.
    destruct tags as [[|t ts]|]; simpl in Hin;
      try (by apply elem_of_nil in Hin).
    cbn [tags_truthy default]. right.
    apply list_elem_of_fmap. exists tag. split; [|done].
    unfold str_get. by rewrite Hnone.
Qed.

(** ** Conversion *)

Lemma convert_entries_app {Image : Type} (tk : converter Image)
    (self : DicomParser) (l1 l2 : list write) :
  convert_entries tk self (l1 ++ l2) =
  match convert_entries tk self l1 with
  | (out, Some e) => (out, Some e)
  | (out, None) =>
      let (out', r) := convert_entries tk self l2 in (out ++ out', r)
  end.
Proof.
  induction l1 as [|w l1 IH]; simpl.
  - by destruct (convert_entries tk self l2).
  - destruct (convert_entry tk self w.1.1 w.1.2 w.2) as [out [e|]]; [done|].
    rewrite IH. destruct (convert_entries tk self l1) as [out1 [e|]]; [done|].
    destruct (convert_entries tk self l2) as [out2 r]. by rewrite app_assoc.
Qed.

Lemma convert_modalities_entries {Image : Type} (tk : converter Image)
    (self : DicomParser) (case_name : string) (inner : dict string) :
  convert_modalities tk self case_name inner =
  convert_entries tk self
    (map (fun kv : string * string => (case_name, kv.1, kv.2)) inner).
Proof.
  induction inner as [|[m p] inner IH]; [done|].
  cbn [convert_modalities map convert_entries fst snd]. by rewrite IH.
Qed.

Lemma convert_to_nifti_entries {Image : Type} (tk : converter Image)
    (self : DicomParser) (memory : NestedDefaultDict) :
  convert_to_nifti tk self memory = convert_entries tk self (entries memory).
Proof.
  induction memory as [|[c inner] memory IH]; [done|].
  cbn [convert_to_nifti]. unfold entries. cbn [flat_map fst snd].
  rewrite convert_entries_app, <- convert_modalities_entries.
  fold (entries memory). by rewrite IH.
Qed.

Lemma convert_entry_converts {Image : Type} (tk : converter Image)
    (self : DicomParser) (w : write) :
  converts tk self w ->
  exists img,
    dicom_sequence_reader tk w.2 = inl img /\
    convert_entry tk self w.1.1 w.1.2 w.2
    = ([MadeDirs (dst_folder self w.1.1);
        Wrote img (nifti_path self w.1.1 w.1.2)], None).
Proof.
  intros (img & Hr & Hd & Hw). exists img. split; [done|].
  unfold convert_entry. by rewrite Hr, Hd, Hw.
Qed.

Lemma convert_entry_failure_paths {Image : Type} (tk : converter Image)
    (self : DicomParser) (w : write) (e : conversion_error) :
  (convert_entry tk self w.1.1 w.1.2 w.2).2 = Some e ->
  paths_written (convert_entry tk self w.1.1 w.1.2 w.2).1 = [].
Proof.
  unfold convert_entry. destruct (dicom_sequence_reader tk w.2); [|done].
  destruct (os_makedirs tk _); [|done]. by destruct (WriteImage tk _ _).
Qed.

Lemma paths_written_app {Image : Type} (l1 l2 : list (written Image)) :
  paths_written (l1 ++ l2) = paths_written l1 ++ paths_written l2.
Proof. unfold paths_written. apply omap_app. Qed.

Lemma convert_entries_all {Image : Type} (tk : converter Image)
    (self : DicomParser) (ws : list write) :
  (forall w, w ∈ ws -> converts tk self w) ->
  exists out,
    convert_entries tk self ws = (out, None) /\
    paths_written out = map (fun w : write => nifti_path self w.1.1 w.1.2) ws /\
    forall img path, Wrote img path ∈ out ->
      exists w, w ∈ ws /\ path = nifti_path self w.1.1 w.1.2 /\
                dicom_sequence_reader tk w.2 = inl img.
Proof.
  induction ws as [|w ws IH]; intros H.
  - exists []. split; [done|]. split; [done|].
    intros img path Hin. by apply elem_of_nil in Hin.
  - destruct (convert_entry_converts tk self w (H w ltac:(left)))
      as (img & Hr & Hc).
    destruct IH as (out & Ho & Hp & Hw); [intros; apply H; by right|].
    eexists. cbn [convert_entries]. rewrite Hc, Ho. split; [done|]. split.
    + simpl. by rewrite Hp.
    + intros img' path Hin. simpl in Hin.
      apply elem_of_cons in Hin as [Hin|Hin]; [done|].
      apply elem_of_cons in Hin as [Hin|Hin].
      * injection Hin as -> ->. exists w. split; [left | done].
      * destruct (Hw img' path Hin) as (w' & Hw' & Hx).
        exists w'. split; [by right | done].
Qed.

(** X16: when every entry of the path memory converts without error,
    [convert_to_nifti] writes one image for each (case, category) entry, in
    the order of the path memory, at [dst/case/case_category.nii.gz], and
    each image is the series read from the directory of the recorded
    file. *)
Theorem convert_to_nifti_all_written {Image : Type} (tk : converter Image)
    (self : DicomParser) (memory : NestedDefaultDict) :
  (forall w, w ∈ entries memory -> converts tk self w) ->
  exists out,
    convert_to_nifti tk self memory = (out, None) /\
    paths_written out
    = map (fun w : write => nifti_path self w.1.1 w.1.2) (entries memory) /\
    forall img path, Wrote img path ∈ out ->
      exists w, w ∈ entries memory /\ path = nifti_path self w.1.1 w.1.2 /\
                dicom_sequence_reader tk w.2 = inl img.
Proof.
  intros H. rewrite convert_to_nifti_entries. by apply convert_entries_all.
Qed.

Lemma convert_to_nifti_all_written_witness :
  exists out,
    convert_to_nifti series_tk series_parser
      [("case1", [("seriesA", "/data/b/1.dcm")])] = (out, None) /\
    paths_written out
    = map (fun w : write => nifti_path series_parser w.1.1 w.1.2)
        (entries [("case1", [("seriesA", "/data/b/1.dcm")])]) /\
    forall img path, Wrote img path ∈ out ->
      exists w, w ∈ entries [("case1", [("seriesA", "/data/b/1.dcm")])] /\
                path = nifti_path series_parser w.1.1 w.1.2 /\
                dicom_sequence_reader series_tk w.2 = inl img.
Proof.
  apply (convert_to_nifti_all_written series_tk series_parser
           [("case1", [("seriesA", "/data/b/1.dcm")])]).
  intros w Hw. simpl in Hw. apply list_elem_of_singleton in Hw as ->.
  exists ["/data/b/1.dcm"; "/data/b/2.dcm"]. split; [|split]; reflexivity.
Defined.

Example convert_to_nifti_series :
  convert_to_nifti series_tk series_parser
    [("case1", [("seriesA", "/data/b/1.dcm")])]
  = ([MadeDirs "/out/case1";
      Wrote ["/data/b/1.dcm"; "/data/b/2.dcm"] "/out/case1/case1_seriesA.nii.gz"],
     None).
Proof. vm_compute. reflexivity. Qed.

(** X17: an error while converting one entry ends the conversion: the
    entries before it are written, neither it nor any entry after it is,
    and [__call__] still ends normally, the error being caught. *)
Theorem conversion_error_stops_and_is_caught {Image : Type}
    (tk : converter Image) (fs : filesystem) (self : DicomParser)
    (s s' : state) (pre : list write) (w : write) (post : list write)
    (e : conversion_error) :
  scan_folder fs self s = (s', Ok tt) ->
  entries (path_memory s') = pre ++ w :: post ->
  (forall w', w' ∈ pre -> converts tk self w') ->
  (convert_entry tk self w.1.1 w.1.2 w.2).2 = Some e ->
  (DicomParser_call tk fs self s).2 = Ok tt /\
  caught (DicomParser_call tk fs self s).1 = Some e /\
  paths_written (converted (DicomParser_call tk fs self s).1)
  = map (fun w' : write => nifti_path self w'.1.1 w'.1.2) pre.
Proof.
  intros Hscan Hent Hpre Hfail. unfold DicomParser_call. rewrite Hscan.
  rewrite convert_to_nifti_entries, Hent, convert_entries_app.
  destruct (convert_entries_all tk self pre Hpre) as (out & -> & Hp & _).
  cbn [convert_entries].
  pose proof (convert_entry_failure_paths tk self w e Hfail) as Hnone.
  destruct (convert_entry tk self w.1.1 w.1.2 w.2) as [outw r].
  simpl in Hfail, Hnone. subst r. simpl.
  split; [done|]. split; [done|].
  by rewrite paths_written_app, Hnone, app_nil_r.
Qed.

Lemma conversion_error_stops_and_is_caught_witness :
  (DicomParser_call series_tk series_fs series_parser
     {| path_memory := two_case_memory; trace := [] |}).2 = Ok tt /\
  caught (DicomParser_call series_tk series_fs series_parser
            {| path_memory := two_case_memory; trace := [] |}).1
  = Some IndexError /\
  paths_written
    (converted (DicomParser_call series_tk series_fs series_parser
                  {| path_memory := two_case_memory; trace := [] |}).1)
  = map (fun w' : write => nifti_path series_parser w'.1.1 w'.1.2)
      [("case1", "seriesA", "/data/b/1.dcm")].
Proof.
  apply (conversion_error_stops_and_is_caught series_tk series_fs series_parser
           {| path_memory := two_case_memory; trace := [] |}
           (scan_folder series_fs series_parser
              {| path_memory := two_case_memory; trace := [] |}).1
           [("case1", "seriesA", "/data/b/1.dcm")]
           ("case2", "seriesA", "/data/empty/1.dcm")
           [("case3", "seriesA", "/data/b/2.dcm")] IndexError).
  - vm_compute. reflexivity.
  - vm_compute. reflexivity.
  - intros w' Hw'. apply list_elem_of_singleton in Hw' as ->.
    exists ["/data/b/1.dcm"; "/data/b/2.dcm"]. split; [|split]; reflexivity.
  - reflexivity.
Defined.

(** ** Conversion: where the images go *)

Lemma prefix_app_l (x a b : string) :
  String.prefix x a = true -> String.prefix x (a +:+ b) = true.
Proof.
  rewrite !prefix_spec. intros [post ->]. exists (post +:+ b).
  induction x as [|c x IH]; [done|]. rewrite !app_String. by rewrite IH.
Qed.

(** X18: a case name that starts with a slash takes the output out of the
    destination folder: the image is written at [case_category.nii.gz],
    read as an absolute path, whatever [dst] is. *)
Theorem nifti_path_absolute_case (self : DicomParser) (case_name modality : string) :
  String.prefix "/" case_name = true ->
  dst_folder self case_name = case_name /\
  nifti_path self case_name modality
  = case_name +:+ "_" +:+ modality +:+ ".nii.gz".
Proof.
  intros H. unfold nifti_path, dst_folder, os_path_join.
  rewrite H. split; [done|]. by rewrite (prefix_app_l _ _ _ H).
Qed.

Lemma nifti_path_absolute_case_witness :
  dst_folder series_parser "/etc/x" = "/etc/x" /\
  nifti_path series_parser "/etc/x" "seriesA"
  = "/etc/x" +:+ "_" +:+ "seriesA" +:+ ".nii.gz".
Proof.
  apply (nifti_path_absolute_case series_parser "/etc/x" "seriesA").
  reflexivity.
Defined.

Lemma str_app_assoc (a b c : string) : (a +:+ b) +:+ c = a +:+ b +:+ c.
Proof.
  induction a as [|x a IH]; [done|].
  rewrite (app_String x a b), (app_String x (a +:+ b) c).
  rewrite (app_String x a (b +:+ c)). by rewrite IH.
Qed.

Lemma endswith_slash_has_slash (b : string) :
  endswith b "/" = true -> has_slash b = true.
Proof.
  induction b as [|c b IH]; [done|]. simpl.
  intros [H|H]%orb_true_iff.
  - case_decide as E; [|done]. injection E as -> _.
    by rewrite decide_True.
  - rewrite (IH H). by rewrite orb_true_r.
Qed.

Lemma endswith_app_no_slash (a b : string) :
  b <> "" -> has_slash b = false -> endswith (a +:+ b) "/" = false.
Proof.
  intros Hne Hb. induction a as [|c a IH].
  - rewrite app_empty_l. destruct (endswith b "/") eqn:E; [|done].
    apply endswith_slash_has_slash in E. congruence.
  - rewrite app_String. simpl. rewrite IH, orb_false_r.
    case_decide as E; [|done]. injection E as _ E.
    destruct a; [by rewrite app_empty_l in E | discriminate].
Qed.

(** X19: for a case name that is not empty and has no slash, and a
    destination that is not empty and does not end with a slash, the image
    of a (case, category) entry is written at
    [dst/case/case_category.nii.gz]. *)
Theorem nifti_path_regular_case (self : DicomParser) (case_name modality : string) :
  dst self <> "" -> endswith (dst self) "/" = false ->
  case_name <> "" -> has_slash case_name = false ->
  dst_folder self case_name = dst self +:+ "/" +:+ case_name /\
  nifti_path self case_name modality
  = dst self +:+ "/" +:+ case_name +:+ "/"
    +:+ case_name +:+ "_" +:+ modality +:+ ".nii.gz".
Proof.
  intros Hd Hde Hc Hcs.
  assert (Hfolder : dst_folder self case_name = dst self +:+ "/" +:+ case_name).
  { unfold dst_folder, os_path_join.
    rewrite (prefix_slash_has_slash _ Hcs), Hde.
    by destruct (dst self). }
  split; [done|]. unfold nifti_path. rewrite Hfolder. unfold os_path_join.
  assert (String.prefix "/" (case_name +:+ "_" +:+ modality +:+ ".nii.gz") = false)
    as ->.
  { destruct case_name as [|c cs]; [done|]. rewrite app_String.
    simpl in Hcs. apply orb_false_elim in Hcs as [Hcs _].
    case_decide as E; [done|].
    change (match Ascii.ascii_dec slash c with
            | left _ => String.prefix "" (cs +:+ "_" +:+ modality +:+ ".nii.gz")
            | right _ => false
            end = false).
    destruct (Ascii.ascii_dec slash c) as [E'|]; [|done]. by destruct E. }
  assert (endswith (dst self +:+ "/" +:+ case_name) "/" = false) as ->.
  { pose proof (endswith_app_no_slash (dst self +:+ "/") case_name Hc Hcs) as H.
    by rewrite str_app_assoc in H. }
  assert (str_truthy (dst self +:+ "/" +:+ case_name) = true) as ->
    by (by destruct (dst self)).
  simpl. by rewrite !str_app_assoc.
Qed.

Lemma nifti_path_regular_case_witness :
  dst_folder series_parser "case1" = dst series_parser +:+ "/" +:+ "case1" /\
  nifti_path series_parser "case1" "seriesA"
  = dst series_parser +:+ "/" +:+ "case1" +:+ "/"
    +:+ "case1" +:+ "_" +:+ "seriesA" +:+ ".nii.gz".
Proof.
  apply (nifti_path_regular_case series_parser "case1" "seriesA");
    [discriminate | reflexivity | discriminate | reflexivity].
Defined.

(** ** [__call__] *)

Lemma scan_folder_missing_key (fs : filesystem) (self : DicomParser)
    (s s1 : state) (wpre wrest : list (string * list string * list string))
    (root : string) (dirs files : list string) (p : string)
    (ds : dataset) (modality key : string) (tags : rules) :
  os_walk fs (src self) = wpre ++ (root, dirs, files) :: wrest ->
  scan_dirs fs self wpre s = (s1, Ok tt) ->
  first_candidate fs self root files = Some p ->
  dcmread fs p = Some ds ->
  dict_get (search_tags self) modality = Some tags ->
  key ∈ dict_keys tags ->
  falsy ds key = true ->
  exists s2 msg, scan_folder fs self s = (s2, Raise (ValueError msg)).
Proof.
  intros Hw Hpre Hfc Hds Ht Hk Hf.
  apply first_candidate_spec in Hfc as (pre & f & post & -> & -> & Hp & Hzero).
  set (p := os_path_join root f) in *.
  set (s1' := log_events s1 (checks root (pre ++ [f]))).
  destruct (search_modalities_falsy self (dict_keys (search_tags self)) ds
              (patient_name ds) p modality key tags
              (log_events s1' [DcmRead p]) (fun _ H => H)
              (dict_get_Some_key _ _ _ Ht) Ht Hk Hf) as [msg Hmsg].
  assert (Hm : meta_data_search fs self p s1'
               = ((meta_data_search fs self p s1').1, Raise (ValueError msg))).
  { rewrite meta_data_search_unfold, Hds.
    rewrite <- Hmsg. by destruct (search_modalities _ _ _ _ _ _). }
  exists (meta_data_search fs self p s1').1, msg.
  rewrite scan_folder_unfold, Hw, scan_dirs_app, Hpre, scan_dirs_cons.
  rewrite scan_files_candidate by done. fold p s1'. by rewrite Hm.
Qed.

(** X20: one chosen file that lacks (or has empty) a key required by some
    category makes the whole [__call__] end with a ValueError without any
    warning and without any image written, also for the cases classified
    before that file. *)
Theorem call_missing_key_converts_nothing {Image : Type} (tk : converter Image)
    (fs : filesystem) (self : DicomParser)
    (s s1 : state) (wpre wrest : list (string * list string * list string))
    (root : string) (dirs files : list string) (p : string)
    (ds : dataset) (modality key : string) (tags : rules) :
  os_walk fs (src self) = wpre ++ (root, dirs, files) :: wrest ->
  scan_dirs fs self wpre s = (s1, Ok tt) ->
  first_candidate fs self root files = Some p ->
  dcmread fs p = Some ds ->
  dict_get (search_tags self) modality = Some tags ->
  key ∈ dict_keys tags ->
  falsy ds key = true ->
  is_ValueError (DicomParser_call tk fs self s).2 /\
  converted (DicomParser_call tk fs self s).1 = [] /\
  warnings (DicomParser_call tk fs self s).1 = [].
Proof.
  intros Hw Hpre Hfc Hds Ht Hk Hf.
  destruct (scan_folder_missing_key fs self s s1 wpre wrest root dirs files p
              ds modality key tags Hw Hpre Hfc Hds Ht Hk Hf) as (s2 & msg & H).
  unfold DicomParser_call. by rewrite H.
Qed.

Lemma call_missing_key_converts_nothing_witness :
  is_ValueError (DicomParser_call series_tk broken_fs series_parser init).2 /\
  converted (DicomParser_call series_tk broken_fs series_parser init).1 = [] /\
  warnings (DicomParser_call series_tk broken_fs series_parser init).1 = [].
Proof.
  apply (call_missing_key_converts_nothing series_tk broken_fs series_parser init
           (scan_dirs broken_fs series_parser
              [("/data", ["a"; "b"; "c"], ["DICOMDIR"]);
               ("/data/a", [], ["notes.txt"; "1.dcm"; "2.dcm"])] init).1
           [("/data", ["a"; "b"; "c"], ["DICOMDIR"]);
            ("/data/a", [], ["notes.txt"; "1.dcm"; "2.dcm"])]
           [("/data/c", [], ["1.dcm"])]
           "/data/b" [] ["1.dcm"; "2.dcm"] "/data/b/1.dcm"
           ds_no_kind "seriesA" "Kind"
           [("Description", [["FOO"]]); ("Kind", [["X"]])]).
  - reflexivity.
  - vm_compute. reflexivity.
  - vm_compute. reflexivity.
  - reflexivity.
  - reflexivity.
  - simpl. right. left.
  - reflexivity.
Defined.

(** * [MergeData.identify_tables] *)

Lemma flat_map_length_const {A B : Type} (f : A -> list B) (l : list A) (n : nat) :
  (forall x, x ∈ l -> length (f x) = n) ->
  length (flat_map f l) = (length l * n)%nat.
Proof.
  induction l as [|a l IH]; intros H; [done|].
  simpl. rewrite length_app, IH by (intros; apply H; by right).
  rewrite (H a) by left. lia.
Qed.

Lemma kept_in_orientations_length (self : MergeData) (segment dim axis : string) :
  length (flat_map (fun orientation =>
            if skipped axis orientation then []
            else map (fun metric => table_name segment dim axis orientation metric)
                     (metrics self)) (orientations self))
  = (length (List.filter (fun o => negb (skipped axis o)) (orientations self))
     * length (metrics self))%nat.
Proof.
  induction (orientations self) as [|o os IH]; [done|].
  simpl. rewrite length_app, IH.
  destruct (skipped axis o); simpl; [lia|]. rewrite length_map. lia.
Qed.

Lemma kept_pairs_length (axs os : list string) :
  length (List.filter (fun ao : string * string => negb (skipped ao.1 ao.2))
            (list_prod axs os))
  = sum_list (map (fun a => length (List.filter (fun o => negb (skipped a o)) os))
                axs).
Proof.
  induction axs as [|a axs IH]; [done|].
  simpl. rewrite List.filter_app, length_app, IH. f_equal.
  clear. induction os as [|o os IH]; [done|].
  simpl. destruct (skipped a o); simpl; by rewrite IH.
Qed.

Lemma identified_in_axes_length (self : MergeData) (segment dim : string) :
  length (flat_map (fun axis =>
            flat_map (fun orientation =>
              if skipped axis orientation then []
              else map (fun metric => table_name segment dim axis orientation metric)
                       (metrics self)) (orientations self)) (axes self))
  = (length (kept_pairs self) * length (metrics self))%nat.
Proof.
  unfold kept_pairs. rewrite kept_pairs_length.
  induction (axes self) as [|a axs IH]; [done|].
  simpl. rewrite length_app, IH, kept_in_orientations_length. lia.
Qed.

(** X21: [identify_tables] keeps the names already in [relevant] and
    appends one name for every segment, dimension, kept pair of axis and
    orientation, and metric: the list grows by the product of these
    numbers, so a second call appends every name a second time. *)
Theorem identify_tables_appends (self : MergeData) :
  relevant (identify_tables self) = relevant self ++ identified self /\
  length (identified self)
  = (length (segments self) * (length (dims self)
     * (length (kept_pairs self) * length (metrics self))))%nat /\
  relevant (identify_tables (identify_tables self))
  = relevant self ++ identified self ++ identified self.
Proof.
  split; [done|]. split.
  - unfold identified.
    apply flat_map_length_const. intros segment _.
    apply flat_map_length_const. intros dim _.
    apply identified_in_axes_length.
  - simpl. by rewrite <- app_assoc.
Qed.

(** X22: a name is appended by [identify_tables] exactly when it is built
    from a configured segment, dimension, axis, orientation and metric
    whose axis and orientation are not one of the three skipped
    combinations (short axis with longitudinal, long axis with
    circumferential or radial). *)
Theorem identified_spec (self : MergeData) (name : string) :
  name ∈ identified self <->
  exists segment dim axis orientation metric,
    segment ∈ segments self /\ dim ∈ dims self /\ axis ∈ axes self /\
    orientation ∈ orientations self /\ metric ∈ metrics self /\
    ~ (axis = "short_axis" /\ orientation = "longit") /\
    ~ (axis = "long_axis" /\ orientation = "circumf") /\
    ~ (axis = "long_axis" /\ orientation = "radial") /\
    name = table_name segment dim axis orientation metric.
Proof.
  assert (Hskip : forall axis orientation,
            skipped axis orientation = false <->
            ~ (axis = "short_axis" /\ orientation = "longit") /\
            ~ (axis = "long_axis" /\ orientation = "circumf") /\
            ~ (axis = "long_axis" /\ orientation = "radial")).
  { intros axis orientation. unfold skipped.
    rewrite !orb_false_iff, !andb_false_iff, !bool_decide_eq_false.
    split.
    - intros [[H1 H2] H3]. repeat split; intros [? ?]; tauto.
    - intros (H1 & H2 & H3).
      repeat split;
        (destruct (decide (axis = "short_axis")); [|by left]) ||
        (destruct (decide (axis = "long_axis")); [|by left]);
        right; intros ?; tauto. }
  unfold identified. rewrite !list_elem_of_In, in_flat_map. split.
  - intros (segment & Hs & H). apply in_flat_map in H as (dim & Hd & H).
    apply in_flat_map in H as (axis & Ha & H).
    apply in_flat_map in H as (orientation & Ho & H).
    destruct (skipped axis orientation) eqn:E; [done|].
    apply in_map_iff in H as (metric & <- & Hm).
    apply Hskip in E as (E1 & E2 & E3).
    exists segment, dim, axis, orientation, metric.
    rewrite !list_elem_of_In. done.
  - intros (segment & dim & axis & orientation & metric
            & Hs & Hd & Ha & Ho & Hm & E1 & E2 & E3 & ->).
    rewrite !list_elem_of_In in *.
    exists segment. split; [done|]. apply in_flat_map.
    exists dim. split; [done|]. apply in_flat_map.
    exists axis. split; [done|]. apply in_flat_map.
    exists orientation. split; [done|].
    rewrite (proj2 (Hskip axis orientation)) by done.
    apply in_map_iff. by exists metric.
Qed.

Example identify_tables_strain :
  length (relevant (identify_tables strain_experiment)) = 12%nat /\
  kept_pairs strain_experiment
  = [("short_axis", "radial"); ("short_axis", "circumf"); ("long_axis", "longit")].
Proof. split; reflexivity. Qed.

(** * The tag matcher over all values *)

Lemma any_in_str (group : value_group) (s : string) :
  PyValue.any_in group (PyValue.PyStr s)
  = Ok (list_truthy (List.filter (fun x => str_in x s) group)).
Proof.
  rewrite list_truthy_filter.
  induction group as [|x group IH]; [done|].
  cbn [PyValue.any_in PyValue.contains existsb]. by rewrite IH.
Qed.

Lemma check_values_str (search_values : list value_group) (s : string)
    (counter : Z) :
  PyValue.check_values search_values (PyValue.PyStr s) counter
  = Ok (check_values search_values s counter).
Proof.
  revert counter. induction search_values as [|g l IH]; intros counter; [done|].
  cbn [PyValue.check_values check_values]. rewrite any_in_str. apply IH.
Qed.

Lemma check_keys_of_strings (tags : rules) (keys : list string) (ds : dataset)
    (case_name : string) (counter count_values : Z) :
  PyValue.check_keys tags keys (PyValue.PyStr <$> ds) case_name counter count_values
  = check_keys tags keys ds case_name counter count_values.
Proof.
  revert counter count_values.
  induction keys as [|k keys IH]; intros counter count_values; [done|].
  cbn [PyValue.check_keys check_keys]. cbv zeta.
  unfold PyValue.get, dataset in *. rewrite lookup_fmap.
  destruct (ds !! k) as [meta|]; simpl; [|done].
  destruct (str_truthy meta); [|done].
  destruct (dict_get tags k); [|done].
  rewrite check_values_str. apply IH.
Qed.

(** On a data set all of whose values are strings, the tag matcher over
    all values is the tag matcher over strings. *)
Lemma check_tags_of_strings (self : DicomParser) (ds : dataset)
    (modality case_name : string) :
  PyValue.check_tags self (PyValue.PyStr <$> ds) modality case_name
  = check_tags self ds modality case_name.
Proof.
  unfold PyValue.check_tags, check_tags.
  destruct (dict_get (search_tags self) modality); [|done].
  by rewrite check_keys_of_strings.
Qed.








Example check_tags_false_values :
  PyValue.check_tags series_parser ds_zero_kind "seriesA" "case1"
  = Raise (missing_value_error "case1" "Kind") /\
  PyValue.check_tags series_parser ds_none_kind "seriesA" "case1"
  = Raise (missing_value_error "case1" "Kind") /\
  PyValue.check_tags series_parser ds_no_items_kind "seriesA" "case1"
  = Raise (missing_value_error "case1" "Kind") /\
  PyValue.check_tags series_parser (PyValue.PyStr <$> ds_empty_kind) "seriesA" "case1"
  = Raise (missing_value_error "case1" "Kind") /\
  PyValue.check_tags series_parser (PyValue.PyStr <$> ds_no_kind) "seriesA" "case1"
  = Raise (missing_value_error "case1" "Kind").
Proof. repeat split; vm_compute; reflexivity. Qed.

(** * Overwriting without conflict detection *)

Lemma check_keys_required (tags : rules) (keys : list string) (ds : dataset)
    (case_name : string) (counter count_values : Z) :
  (forall k, k ∈ keys -> k ∈ dict_keys tags /\ falsy ds k = false) ->
  exists r, check_keys tags keys ds case_name counter count_values = Ok r.
Proof.
  revert counter count_values.
  induction keys as [|k keys IH]; intros counter count_values H; [by eexists|].
  destruct (H k) as [Hk Hf]; [left|].
  cbn [check_keys]. unfold falsy in Hf.
  destruct (ds !! k) as [meta|]; [|done].
  destruct (str_truthy meta); [|done].
  destruct (dict_get_key tags k Hk) as [g ->].
  apply IH. intros; apply H; by right.
Qed.

Lemma check_tags_required (self : DicomParser) (ds : dataset)
    (m case_name : string) :
  has_required_keys self ds ->
  m ∈ dict_keys (search_tags self) ->
  exists b, check_tags self ds m case_name = Ok b.
Proof.
  intros Hreq Hm. unfold check_tags.
  destruct (dict_get_key _ _ Hm) as [tags Ht]. rewrite Ht.
  destruct (check_keys_required tags (dict_keys tags) ds case_name 0 0)
    as [[c n] ->]; [|by eexists].
  intros k Hk. split; [done|]. by apply (Hreq m tags).
Qed.

Lemma scan_files_rejects_all (fs : filesystem) (self : DicomParser)
    (root : string) (files : list string) (s : state) :
  (forall file, file ∈ files -> check_file fs self (os_path_join root file) = Ok 0) ->
  scan_files fs self root files s = (log_events s (checks root files), Ok tt).
Proof.
  revert s. induction files as [|file files IH]; intros s H.
  - by rewrite log_events_nil.
  - rewrite scan_files_cons. cbv zeta. rewrite (H file) by left.
    rewrite bool_decide_eq_false_2 by (intros E; by apply E).
    rewrite IH by (intros; apply H; by right).
    by rewrite log_events_app.
Qed.

(** The scan of a scannable directory ends normally, whatever the path
    memory holds when it starts. *)
Lemma scan_files_scannable (fs : filesystem) (self : DicomParser)
    (root : string) (dirs files : list string) (s : state) :
  dir_scannable fs self (root, dirs, files) ->
  (scan_files fs self root files s).2 = Ok tt.
Proof.
  unfold dir_scannable. cbn [fst snd].
  destruct (first_candidate fs self root files) as [p|] eqn:E.
  - intros (ds & Hds & Hreq).
    apply first_candidate_spec in E as (pre & f & post & -> & -> & Hp & Hzero).
    rewrite scan_files_candidate by done.
    rewrite meta_data_search_unfold, Hds.
    apply search_modalities_all_Ok. intros m Hm.
    by apply check_tags_required.
  - intros H. by rewrite scan_files_rejects_all.
Qed.

Lemma scan_dirs_scannable (fs : filesystem) (self : DicomParser)
    (w : list (string * list string * list string)) (s : state) :
  (forall d, d ∈ w -> dir_scannable fs self d) ->
  (scan_dirs fs self w s).2 = Ok tt.
Proof.
  revert s. induction w as [|[[root dirs] files] w IH]; intros s H; [done|].
  rewrite scan_dirs_cons.
  pose proof (scan_files_scannable fs self root dirs files s (H _ ltac:(left)))
    as H1.
  destruct (scan_files fs self root files s) as [s1 r]. simpl in H1. subst r.
  apply IH. intros; apply H; by right.
Qed.

Lemma scan_folder_scannable (fs : filesystem) (self : DicomParser) (s : state) :
  (forall d, d ∈ os_walk fs (src self) -> dir_scannable fs self d) ->
  exists s', scan_folder fs self s = (s', Ok tt).
Proof.
  intros H. rewrite scan_folder_unfold.
  pose proof (scan_dirs_scannable fs self (os_walk fs (src self)) s H) as H1.
  destruct (scan_dirs fs self (os_walk fs (src self)) s) as [s1 r].
  simpl in H1. subst r. by eexists.
Qed.

(** C5: on a tree whose directories can be scanned (the chosen files can
    be read and have the required keys), whatever the path memory holds at
    the start: when the files read in two directories of the walk both
    match a category and derive the same case identity, the location of the
    earlier file is stored after its directory, the later file overwrites
    it without any error, the run ends normally, and the final path memory
    holds the location of the later file (no file read after it matching
    that pair). *)
Theorem later_match_overwrites (fs : filesystem) (self : DicomParser)
    (s : state) (w1 w2 w3 : list (string * list string * list string))
    (root1 : string) (dirs1 files1 : list string)
    (root2 : string) (dirs2 files2 : list string) (p1 p2 c m : string) :
  os_walk fs (src self)
  = w1 ++ (root1, dirs1, files1) :: w2 ++ (root2, dirs2, files2) :: w3 ->
  (forall d, d ∈ os_walk fs (src self) -> dir_scannable fs self d) ->
  first_candidate fs self root1 files1 = Some p1 ->
  first_candidate fs self root2 files2 = Some p2 ->
  matchesb fs self p1 c m = true ->
  matchesb fs self p2 c m = true ->
  (forall root dirs files p,
     (root, dirs, files) ∈ w3 ->
     first_candidate fs self root files = Some p ->
     matchesb fs self p c m = false) ->
  exists s1 s2 s',
    scan_dirs fs self (w1 ++ [(root1, dirs1, files1)]) s = (s1, Ok tt) /\
    lookup2 (path_memory s1) c m = Some p1 /\
    scan_dirs fs self
      (w1 ++ (root1, dirs1, files1) :: w2 ++ [(root2, dirs2, files2)]) s
    = (s2, Ok tt) /\
    lookup2 (path_memory s2) c m = Some p2 /\
    scan_folder fs self s = (s', Ok tt) /\
    lookup2 (path_memory s') c m = Some p2.
Proof.
  intros Hw Hscan Hc1 Hc2 Hm1 Hm2 Hno.
  destruct (scan_folder_scannable fs self s Hscan) as [s' Hrun].
  destruct (later_match_lookup fs self s s' w1 w2 w3 root1 dirs1 files1
              root2 dirs2 files2 p1 p2 c m Hw Hrun Hc1 Hc2 Hm1 Hm2 Hno)
    as [(s1 & Hs1 & Hl1) Hl'].
  assert (Hok : (scan_dirs fs self
                   (w1 ++ (root1, dirs1, files1) :: w2 ++ [(root2, dirs2, files2)])
                   s).2 = Ok tt).
  { apply scan_dirs_scannable. intros d Hd. apply Hscan. rewrite Hw.
    rewrite !elem_of_app, !elem_of_cons, !elem_of_app, !elem_of_cons in *.
    rewrite elem_of_nil in Hd. tauto. }
  destruct (scan_dirs fs self
              (w1 ++ (root1, dirs1, files1) :: w2 ++ [(root2, dirs2, files2)]) s)
    as [s2 r] eqn:E2.
  simpl in Hok. subst r.
  exists s1, s2, s'. repeat split; try done.
  change (w1 ++ (root1, dirs1, files1) :: w2 ++ [(root2, dirs2, files2)])
    with (w1 ++ (root1, dirs1, files1) :: w2 ++ (root2, dirs2, files2) :: [])
    in E2.
  apply scan_dirs_app_Ok in E2 as (sa & Ha & E2).
  apply scan_dirs_cons_Ok in E2 as (sb & Hb & E2).
  apply scan_dirs_app_Ok in E2 as (sc & Hc & E2).
  apply scan_dirs_cons_Ok in E2 as (sd & Hd & E2).
  injection E2 as <-.
  by rewrite (scan_files_lookup _ _ _ _ _ _ c m Hd), Hc2, Hm2.
Qed.

Lemma dir_scannable_candidate (fs : filesystem) (self : DicomParser)
    (d : string * list string * list string) (p : string) (ds : dataset) :
  first_candidate fs self d.1.1 d.2 = Some p ->
  dcmread fs p = Some ds ->
  has_required_keys self ds ->
  dir_scannable fs self d.
Proof. intros E Hds Hreq. unfold dir_scannable. rewrite E. by exists ds. Qed.

Lemma dir_scannable_no_candidate (fs : filesystem) (self : DicomParser)
    (d : string * list string * list string) :
  (forall file, file ∈ d.2 -> check_file fs self (os_path_join d.1.1 file) = Ok 0) ->
  dir_scannable fs self d.
Proof.
  intros H. unfold dir_scannable.
  destruct (first_candidate fs self d.1.1 d.2) as [p|] eqn:E; [|done].
  apply first_candidate_spec in E as (pre & f & post & Hd & -> & [c [Hc Hne]] & _).
  rewrite (H f) in Hc; [congruence|]. rewrite Hd, elem_of_app. right. left.
Qed.

Lemma series_parser_required_keys : has_required_keys series_parser ds_foo_x.
Proof.
  intros m tags key Hget Hk. simpl in Hget.
  case_decide; [|done]. injection Hget as <-. simpl in Hk.
  apply elem_of_cons in Hk as [->|Hk]; [reflexivity|].
  apply elem_of_cons in Hk as [->|Hk]; [reflexivity|].
  by apply elem_of_nil in Hk.
Qed.

Lemma series_fs_scannable (d : string * list string * list string) :
  d ∈ os_walk series_fs (src series_parser) ->
  dir_scannable series_fs series_parser d.
Proof.
  intros Hd.
  change (d ∈ [("/data", ["a"; "b"; "c"], ["DICOMDIR"]);
               ("/data/a", [], ["notes.txt"; "1.dcm"; "2.dcm"]);
               ("/data/b", [], ["1.dcm"; "2.dcm"]);
               ("/data/c", [], ["1.dcm"])]) in Hd.
  apply elem_of_cons in Hd as [->|Hd].
  { apply dir_scannable_no_candidate. intros file Hf. cbn [fst snd] in *.
    apply list_elem_of_singleton in Hf as ->. vm_compute. reflexivity. }
  apply elem_of_cons in Hd as [->|Hd].
  { apply (dir_scannable_candidate _ _ _ "/data/a/1.dcm" ds_foo_x);
      [vm_compute; reflexivity | reflexivity | apply series_parser_required_keys]. }
  apply elem_of_cons in Hd as [->|Hd].
  { apply (dir_scannable_candidate _ _ _ "/data/b/1.dcm" ds_foo_x);
      [vm_compute; reflexivity | reflexivity | apply series_parser_required_keys]. }
  apply list_elem_of_singleton in Hd as ->.
  apply dir_scannable_no_candidate. intros file Hf. cbn [fst snd] in *.
  apply list_elem_of_singleton in Hf as ->. vm_compute. reflexivity.
Qed.

Lemma later_match_overwrites_witness :
  exists s1 s2 s',
    scan_dirs series_fs series_parser
      ([("/data", ["a"; "b"; "c"], ["DICOMDIR"])]
       ++ [("/data/a", [], ["notes.txt"; "1.dcm"; "2.dcm"])]) init = (s1, Ok tt) /\
    lookup2 (path_memory s1) "case1" "seriesA" = Some "/data/a/1.dcm" /\
    scan_dirs series_fs series_parser
      ([("/data", ["a"; "b"; "c"], ["DICOMDIR"])]
       ++ ("/data/a", [], ["notes.txt"; "1.dcm"; "2.dcm"])
          :: [] ++ [("/data/b", [], ["1.dcm"; "2.dcm"])]) init = (s2, Ok tt) /\
    lookup2 (path_memory s2) "case1" "seriesA" = Some "/data/b/1.dcm" /\
    scan_folder series_fs series_parser init = (s', Ok tt) /\
    lookup2 (path_memory s') "case1" "seriesA" = Some "/data/b/1.dcm".
Proof.
  apply (later_match_overwrites series_fs series_parser init
           [("/data", ["a"; "b"; "c"], ["DICOMDIR"])] []
           [("/data/c", [], ["1.dcm"])]
           "/data/a" [] ["notes.txt"; "1.dcm"; "2.dcm"]
           "/data/b" [] ["1.dcm"; "2.dcm"]
           "/data/a/1.dcm" "/data/b/1.dcm" "case1" "seriesA").
  - reflexivity.
  - apply series_fs_scannable.
  - vm_compute. reflexivity.
  - vm_compute. reflexivity.
  - vm_compute. reflexivity.
  - vm_compute. reflexivity.
  - intros root dirs files p Hin.
    apply list_elem_of_singleton in Hin. injection Hin as -> -> ->.
    vm_compute. discriminate.
Defined.
